(** * Verification of [script/process.py]

    The script reads CSV files of device metadata, validates every row
    against [DEVICE_SCHEMA] and merges it into the [info.yaml] document of
    the device's directory [devices/<integration>/<manufacturer>/<model>].

    The embedding keeps Python's dictionaries as finite maps, Python's
    exceptions as the left summand of a result type, and the file system
    together with the calls made on it as an explicit world that is
    threaded through [process_row], [process_file] and [process].

    What the script takes from outside is modelled as follows.
    - [csv.DictReader]: a file is the list of the rows the reader yields.
    - [vol.Schema]: the schema is compiled with voluptuous' defaults,
      [Schema(schema, required=False, extra=PREVENT_EXTRA)].
    - [yaml]: [safe_load] after [dump] gives the document back, so the
      tree holds documents rather than text.
    - [pathlib] and the file system: a directory of the tree is named by
      the three segments of [model_dir], taken as they are; what the tree
      holds there is all that [exists], [copytree], [read_text] and
      [write_text] see or change. This is the file system as the script
      expects it: the calls fail only as modelled (no [OSError] of the
      disk, no text that [yaml] cannot parse), and the names are proper
      ([proper_path] below), so that [pathlib] joins them as they are and
      different lists of names are different directories. The properties
      that speak of every exception or of other directories say so in
      their hypotheses.
    - The catalog of integrations and the template directory are not
      part of the script's source: they are variables. *)

From stdpp Require Import gmap strings list fin_maps.
From Stdlib Require Import ZArith Ascii.

Local Open Scope Z_scope.
Local Open Scope string_scope.
Local Open Scope list_scope.

(** ** Python values *)

(** The values a validated row can hold: [None], a [bool] or a [str]. *)
Inductive scalar :=
| SNone
| SBool (b : bool)
| SStr (s : string).

Global Instance scalar_eq_dec : EqDecision scalar.
Proof. solve_decision. Defined.

(** One entry of [info["versions"]]: a dictionary with the optional keys
    ["software"] and ["hardware"]. *)
Abbreviation Version := (gmap string scalar).

(** The values found under the keys of an [info.yaml] mapping: a scalar, or
    the list of version dictionaries. *)
Inductive value :=
| VScalar (x : scalar)
| VVersions (l : list Version).

Global Instance value_eq_dec : EqDecision value.
Proof. solve_decision. Defined.

(** Python truthiness ([if x:]). *)
Definition truthy (x : scalar) : bool :=
  match x with
  | SNone => false
  | SBool b => b
  | SStr s => negb (String.eqb s "")
  end.

Definition truthy_value (v : value) : bool :=
  match v with
  | VScalar x => truthy x
  | VVersions l => match l with [] => false | _ => true end
  end.

(** A validated row and a loaded [info.yaml] mapping. *)
Abbreviation Row := (gmap string scalar).
Abbreviation Info := (gmap string value).

(** A row as [csv.DictReader] yields it: the cells found under the header's
    column names ([None], the reader's [restval], where the line was too
    short), and the surplus cells of a line that was too long, which the
    reader stores under the key [None] (its [restkey]). *)
Record raw_row := RawRow {
  cells : gmap string (option string);
  rest : option (list string)
}.

(** ** Exceptions *)

(** [Invalid] is [vol.Invalid], carrying the keys the schema complained
    about ([None] stands for the reader's [restkey]). *)
Inductive exn :=
| Invalid (paths : gset (option string))
| KeyError (key : string)
| TypeError
| AttributeError
| FileNotFoundError
| FileExistsError.

Global Instance exn_eq_dec : EqDecision exn.
Proof. solve_decision. Defined.

Abbreviation result A := (exn + A)%type.

(** ** [UpdateRecord] *)

Record UpdateRecord := mkUpdateRecord {
  created : Z;
  updated : Z;
  ignored : Z
}.

Global Instance UpdateRecord_eq_dec : EqDecision UpdateRecord.
Proof. solve_decision. Defined.

(** [UpdateRecord()] *)
Definition UpdateRecord_default : UpdateRecord := mkUpdateRecord 0 0 0.

(** [UpdateRecord.__add__] *)
Definition UpdateRecord_add (self other : UpdateRecord) : UpdateRecord :=
  mkUpdateRecord (created self + created other)
                 (updated self + updated other)
                 (ignored self + ignored other).

(** ** The converters of the schema *)

(** [str] used as a validator: voluptuous accepts the value when it is an
    instance of the class and leaves it as it is. *)
Definition str (value : option string) : option scalar :=
  match value with
  | Some s => Some (SStr s)
  | None => None
  end.

(** [str_or_none] *)
Definition str_or_none (value : option string) : scalar :=
  match value with
  | Some s => if String.eqb s "None" then SNone else SStr s
  | None => SNone
  end.

(** [bool] of the script, which shadows the builtin: [value == "True"]. *)
Definition bool_ (value : option string) : Datatypes.bool :=
  match value with
  | Some s => String.eqb s "True"
  | None => false
  end.

(** A validator of the schema: a class, checked with [isinstance], or a
    function, which is called (and none of the script's functions raises). *)
Inductive validator :=
| IsStr
| Call (f : option string → scalar).

Definition run_validator (v : validator) (x : option string) : option scalar :=
  match v with
  | IsStr => str x
  | Call f => Some (f x)
  end.

(** The dictionary handed to [vol.Schema]. *)
Definition DEVICE_SCHEMA_dict : gmap string validator :=
  list_to_map
  [ ("integration", IsStr);
    ("manufacturer", IsStr);
    ("model", IsStr);
    ("sw_version", Call str_or_none);
    ("hw_version", Call str_or_none);
    ("has_via_device", Call (λ x, SBool (bool_ x)));
    ("has_suggested_area", Call (λ x, SBool (bool_ x)));
    ("has_configuration_url", Call (λ x, SBool (bool_ x)));
    ("entry_type", Call str_or_none) ].

(** What voluptuous does with one item of the data: a key the schema does
    not know is an error ([extra=PREVENT_EXTRA], the default of
    [vol.Schema]); a known key has its value validated. *)
Definition validate_cell (key : string) (x : option string) : option scalar :=
  match DEVICE_SCHEMA_dict !! key with
  | Some v => run_validator v x
  | None => None
  end.

(** The keys voluptuous reports. *)
Definition offending (raw : raw_row) : gset (option string) :=
  set_map Some (dom (filter (λ kv, validate_cell kv.1 kv.2 = None) (cells raw)))
  ∪ (if rest raw is Some _ then {[ None ]} else ∅).

(** [DEVICE_SCHEMA(row)]. The schema is built by [vol.Schema({...})] with
    the library's defaults and with plain strings as keys, none marked
    [vol.Required]: its keys are optional ([required=False]), so a key that
    is absent from the data is no error and is absent from the result;
    keys outside the schema are rejected; all errors are collected into one
    exception. *)
Definition DEVICE_SCHEMA (raw : raw_row) : result Row :=
  if decide (offending raw = ∅)
  then inr (map_imap validate_cell (cells raw))
  else inl (Invalid (offending raw)).

(** ** The world: the devices tree and the calls made on it *)

(** A directory below [DEVICES_DIR], named by the segments joined with [/]. *)
Abbreviation path := (list string).

(** What [yaml.safe_load] makes of an [info.yaml]: a mapping or anything
    else. *)
Inductive yaml :=
| YMapping (i : Info)
| YOther.

Global Instance yaml_eq_dec : EqDecision yaml.
Proof. solve_decision. Defined.

(** An existing directory: the document of its [info.yaml], or [None] when
    there is no such file in it. *)
Abbreviation dir := (option yaml).

Inductive event :=
| Exists (p : path)
| Copytree (dst : path)
| ReadText (p : path)
| WriteText (p : path) (doc : Info).

Global Instance event_eq_dec : EqDecision event.
Proof. solve_decision. Defined.

Record world := World {
  fs : gmap path dir;
  calls : list event
}.

Global Instance world_eq_dec : EqDecision world.
Proof. solve_decision. Defined.

(** Computations that may raise and that act on the world; what was done
    before an exception stays done. *)
Definition M (A : Type) : Type := world → result A * world.

Definition ret {A} (a : A) : M A := λ w, (inr a, w).

Definition raise {A} (e : exn) : M A := λ w, (inl e, w).

Definition bind {A B} (m : M A) (k : A → M B) : M B :=
  λ w, match m w with
       | (inr a, w') => k a w'
       | (inl e, w') => (inl e, w')
       end.

Definition lift {A} (r : result A) : M A :=
  match r with
  | inr a => ret a
  | inl e => raise e
  end.

(** [try: m / except Exception as err: handler / else: orelse] *)
Definition try_except {A B} (m : M A) (handler : exn → M B) (orelse : A → M B) : M B :=
  λ w, match m w with
       | (inr a, w') => orelse a w'
       | (inl e, w') => handler e w'
       end.

Declare Scope py_scope.
Delimit Scope py_scope with py.
Notation "x <- m ; k" := (bind m (λ x, k))
  (at level 20, m at level 100, k at level 200, only parsing) : py_scope.
Notation "' pat <- m ; k" := (bind m (λ x, match x with pat => k end))
  (at level 20, pat pattern, m at level 100, k at level 200, only parsing) : py_scope.

(** The same for code that only raises. *)
Definition rbind {A B} (r : result A) (k : A → result B) : result B :=
  match r with
  | inr a => k a
  | inl e => inl e
  end.

Declare Scope res_scope.
Delimit Scope res_scope with res.
Notation "x <- r ; k" := (rbind r (λ x, k))
  (at level 20, r at level 100, k at level 200, only parsing) : res_scope.
Notation "' pat <- r ; k" := (rbind r (λ x, match x with pat => k end))
  (at level 20, pat pattern, r at level 100, k at level 200, only parsing) : res_scope.

(** [for x in l: s = body(s, x)] *)
Fixpoint for_each {A S} (body : S → A → result S) (l : list A) (s : S) : result S :=
  match l with
  | [] => inr s
  | x :: l' => (s' <- body s x ; for_each body l' s')%res
  end.

Fixpoint for_each_M {A S} (body : S → A → M S) (l : list A) (s : S) : M S :=
  match l with
  | [] => ret s
  | x :: l' => (s' <- body s x ; for_each_M body l' s')%py
  end.

(** ** Python operations used by the script *)

(** [d[key]] on a dictionary. *)
Definition getitem {V} (d : gmap string V) (key : string) : result V :=
  match d !! key with
  | Some v => inr v
  | None => inl (KeyError key)
  end.

(** [s.replace(old, new)] for one-character [old] and [new]. *)
Fixpoint replace_char (old new : Ascii.ascii) (s : string) : string :=
  match s with
  | EmptyString => EmptyString
  | String c s' => String (if Ascii.eqb c old then new else c) (replace_char old new s')
  end.

(** [x.replace("/", "_")]: only a [str] has the method. *)
Definition replace (x : scalar) (old new : Ascii.ascii) : result string :=
  match x with
  | SStr s => inr (replace_char old new s)
  | _ => inl AttributeError
  end.

(** [p / x]: [pathlib] joins a path with a [str] only. *)
Definition truediv (p : path) (x : scalar) : result path :=
  match x with
  | SStr s => inr (p ++ [s])
  | _ => inl TypeError
  end.

(** [x in s] for a set of strings. *)
Definition in_set (x : scalar) (s : gset string) : bool :=
  match x with
  | SStr d => bool_decide (d ∈ s)
  | _ => false
  end.

(** [p.exists()] *)
Definition path_exists (p : path) : M bool :=
  λ w, (inr (bool_decide (is_Some (fs w !! p))), World (fs w) (calls w ++ [Exists p])).

(** [yaml.safe_load((p / "info.yaml").read_text())] *)
Definition safe_load_read_text (p : path) : M yaml :=
  λ w, let w' := World (fs w) (calls w ++ [ReadText p]) in
       match fs w !! p with
       | Some (Some doc) => (inr doc, w')
       | _ => (inl FileNotFoundError, w')
       end.

(** [(p / "info.yaml").write_text(yaml.dump(info))] *)
Definition write_text_dump (p : path) (i : Info) : M unit :=
  λ w, (inr (), World (<[p := Some (YMapping i)]> (fs w)) (calls w ++ [WriteText p i])).

(** ** The script *)

Section Script.

(** The keys of the JSON object fetched from
    [https://www.home-assistant.io/integrations.json]. *)
Variable INTEGRATIONS_INFO : gset string.

(** The directory [TEMPLATE_DIR], which [shutil.copytree] copies: what a
    new device directory starts with. *)
Variable TEMPLATE_DIR : dir.

Definition APPROVED_INTEGRATIONS : gset string :=
  filter (λ domain, domain ∉ ["wled"; "fritz"]) INTEGRATIONS_INFO.

(** [shutil.copytree(TEMPLATE_DIR, dst)], which refuses a [dst] that
    exists. *)
Definition copytree (dst : path) : M unit :=
  λ w, match fs w !! dst with
       | None => (inr (), World (<[dst := TEMPLATE_DIR]> (fs w)) (calls w ++ [Copytree dst]))
       | Some _ => (inl FileExistsError, World (fs w) (calls w ++ [Copytree dst]))
       end.

(** The pairs the merge loop of [process_row] runs over. *)
Definition FIELD_PAIRS : list (string * string) :=
  [ ("manufacturer", "manufacturer_raw");
    ("model", "model_raw");
    ("manufacturer", "manufacturer_name");
    ("model", "model_name");
    ("has_via_device", "has_via_device");
    ("has_suggested_area", "has_suggested_area");
    ("has_configuration_url", "has_configuration_url");
    ("entry_type", "entry_type") ].

(** The body of the merge loop:
    [if not info[info_key] and row[row_key]: info[info_key] = row[row_key];
    changed = True]. The [and] does not look at the row when the document's
    field is truthy. *)
Definition merge_field (row : Row) (st : Info * bool) (pair : string * string)
  : result (Info * bool) :=
  let '(info, changed) := st in
  let '(row_key, info_key) := pair in
  (old <- getitem info info_key ;
   if truthy_value old then inr (info, changed)
   else
     new <- getitem row row_key ;
     if truthy new then inr (<[info_key := VScalar new]> info, true)
     else inr (info, changed))%res.

(** The construction of [version]. *)
Definition build_version (row : Row) : result Version :=
  (let version : Version := ∅ in
   sw <- getitem row "sw_version" ;
   let version := if truthy sw then <["software" := sw]> version else version in
   hw <- getitem row "hw_version" ;
   let version := if truthy hw then <["hardware" := hw]> version else version in
   inr version)%res.

(** [if version not in info["versions"]: info["versions"].append(version);
    changed = True]. Only a list can be searched for a dictionary. *)
Definition merge_version (version : Version) (st : Info * bool) : result (Info * bool) :=
  let '(info, changed) := st in
  (versions <- getitem info "versions" ;
   match versions with
   | VVersions l =>
       if bool_decide (version ∈ l) then inr (info, changed)
       else inr (<["versions" := VVersions (l ++ [version])]> info, true)
   | VScalar _ => inl TypeError
   end)%res.

(** [model_dir] of [process_row]. *)
Definition model_dir (row : Row) : result path :=
  (integration <- getitem row "integration" ;
   p <- truediv [] integration ;
   manufacturer <- getitem row "manufacturer" ;
   manufacturer <- replace manufacturer "/"%char "_"%char ;
   p <- truediv p (SStr manufacturer) ;
   model <- getitem row "model" ;
   model <- replace model "/"%char "_"%char ;
   truediv p (SStr model))%res.

Definition process_row (row : Row) : M UpdateRecord :=
  (let update_record := UpdateRecord_default in
   model_dir <- lift (model_dir row) ;
   integration <- lift (getitem row "integration") ;
   if negb (in_set integration APPROVED_INTEGRATIONS) then
     ret (mkUpdateRecord (created update_record) (updated update_record) 1)
   else
     dir_exists <- path_exists model_dir ;
     update_record <-
       (if negb dir_exists then
          _ <- copytree model_dir ;
          ret (mkUpdateRecord 1 (updated update_record) (ignored update_record))
        else ret update_record) ;
     doc <- safe_load_read_text model_dir ;
     let changed := false in
     entry_type <- lift (getitem row "entry_type") ;
     let row := if negb (truthy entry_type)
                then <["entry_type" := SStr "device"]> row else row in
     (* the first [info[info_key]] of the loop fails on what is no mapping *)
     info <- (match doc with YMapping i => ret i | YOther => raise TypeError end) ;
     '(info, changed) <- lift (for_each (merge_field row) FIELD_PAIRS (info, changed)) ;
     version <- lift (build_version row) ;
     '(info, changed) <- lift (merge_version version (info, changed)) ;
     if changed then
       _ <- write_text_dump model_dir info ;
       if negb (bool_decide (created update_record ≠ 0)) then
         ret (mkUpdateRecord (created update_record) 1 (ignored update_record))
       else ret update_record
     else ret update_record)%py.

(** The body of the loop of [process_file]: an invalid row is printed and
    its exception raised again; a valid one is merged and counted. *)
Definition process_file_row (total : UpdateRecord) (raw : raw_row) : M UpdateRecord :=
  (row <- lift (DEVICE_SCHEMA raw) ;
   update_record <- process_row row ;
   ret (UpdateRecord_add total update_record))%py.

(** [process_file], on the rows that [csv.DictReader] reads from the
    file. *)
Definition process_file (rows : list raw_row) : M UpdateRecord :=
  let total := UpdateRecord_default in
  for_each_M process_file_row rows total.

(** What [process] prints after a file's name. *)
Inductive status :=
| Done
| Error (err : exn).

Global Instance status_eq_dec : EqDecision status.
Proof. solve_decision. Defined.

(** The body of the loop of [process]: the file's line says [Done] and its
    record is added to the total, or the line says [Error] and the total
    stays as it is. *)
Definition process_path (acc : list (string * status) * UpdateRecord)
    (file : string * list raw_row) : M (list (string * status) * UpdateRecord) :=
  let '(out, total) := acc in
  let '(path, rows) := file in
  try_except (process_file rows)
    (λ err, ret (out ++ [(path, Error err)], total))
    (λ r, ret (out ++ [(path, Done)], UpdateRecord_add total r)).

(** [process], on the files that [PROCESS_DIR.glob("*.csv")] yields, each
    with the rows read from it. What is printed is returned: the line of
    each file, and the total. *)
Definition process (files : list (string * list raw_row))
  : M (list (string * status) * UpdateRecord) :=
  let total := UpdateRecord_default in
  for_each_M process_path files ([], total).

End Script.

(** ** Vocabulary of the properties *)

(** The nine columns of the schema. *)
Definition SCHEMA_KEYS : list string :=
  [ "integration"; "manufacturer"; "model"; "sw_version"; "hw_version";
    "has_via_device"; "has_suggested_area"; "has_configuration_url";
    "entry_type" ].

Definition is_str (x : scalar) : bool :=
  match x with SStr _ => true | _ => false end.

Definition is_str_or_none (x : scalar) : bool :=
  match x with SStr _ | SNone => true | SBool _ => false end.

Definition is_bool (x : scalar) : bool :=
  match x with SBool _ => true | _ => false end.

Definition has_type (ty : scalar → bool) (row : Row) (key : string) : bool :=
  match row !! key with
  | Some x => ty x
  | None => false
  end.

(** A valid row: every column is there and holds a value of its type. *)
Definition DeviceRow (row : Row) : bool :=
  has_type is_str row "integration"
  && has_type is_str row "manufacturer"
  && has_type is_str row "model"
  && has_type is_str_or_none row "sw_version"
  && has_type is_str_or_none row "hw_version"
  && has_type is_bool row "has_via_device"
  && has_type is_bool row "has_suggested_area"
  && has_type is_bool row "has_configuration_url"
  && has_type is_str_or_none row "entry_type".

(** The fields of a document that the merge loop fills. *)
Definition INFO_KEYS : list string := snd <$> FIELD_PAIRS.

(** A document of the shape the script expects: the eight fields are there
    and ["versions"] is a list. *)
Definition Document (i : Info) : bool :=
  forallb (λ k, bool_decide (is_Some (i !! k))) INFO_KEYS
  && match i !! "versions" with Some (VVersions _) => true | _ => false end.

(** [row] after [if not row["entry_type"]: row["entry_type"] = "device"]. *)
Definition with_entry_type (row : Row) : Row :=
  match row !! "entry_type" with
  | Some x => if truthy x then row else <["entry_type" := SStr "device"]> row
  | None => row
  end.

(** The part of [process_row] between the load and the save, on a document
    that is a mapping: the document and [changed] after the loop and the
    version step. *)
Definition merge (row : Row) (i : Info) : result (Info * bool) :=
  (_ <- getitem row "entry_type" ;
   st <- for_each (merge_field (with_entry_type row)) FIELD_PAIRS (i, false) ;
   version <- build_version (with_entry_type row) ;
   merge_version version st)%res.

(** The mapping [process_row] loads for the directory [p]: the one on disk,
    or the template's when the directory is yet to be made. *)
Definition loaded (TEMPLATE_DIR : dir) (w : world) (p : path) : option Info :=
  match fs w !! p with
  | None => match TEMPLATE_DIR with Some (YMapping t) => Some t | _ => None end
  | Some (Some (YMapping i)) => Some i
  | Some _ => None
  end.

(** The directories and calls once [process_row] has loaded the document. *)
Definition after_load (TEMPLATE_DIR : dir) (w : world) (p : path) : world :=
  match fs w !! p with
  | None => World (<[p := TEMPLATE_DIR]> (fs w))
                  (calls w ++ [Exists p; Copytree p; ReadText p])
  | Some _ => World (fs w) (calls w ++ [Exists p; ReadText p])
  end.

(** The record [process_row] returns for an approved row. *)
Definition outcome (existed changed : bool) : UpdateRecord :=
  if existed then (if changed then mkUpdateRecord 0 1 0 else mkUpdateRecord 0 0 0)
  else mkUpdateRecord 1 0 0.

(** The field [k] of the document of [p] holds [v]. *)
Definition field_holds (w : world) (p : path) (k : string) (v : value) : Prop :=
  ∃ i, fs w !! p = Some (Some (YMapping i)) ∧ i !! k = Some v.

(** The list under ["versions"] in the document of [p]. *)
Definition versions_of (w : world) (p : path) : option (list Version) :=
  match fs w !! p with
  | Some (Some (YMapping i)) =>
      match i !! "versions" with Some (VVersions l) => Some l | _ => None end
  | _ => None
  end.

(** The calls made between two worlds. *)
Definition new_calls (w w' : world) : list event :=
  drop (length (calls w)) (calls w').

Definition is_write (e : event) : bool :=
  match e with WriteText _ _ => true | _ => false end.

Definition is_copytree (e : event) : bool :=
  match e with Copytree _ => true | _ => false end.

(** The dictionary built from the two version cells of a row. *)
Definition version_of (sw hw : scalar) : Version :=
  let version : Version := if truthy sw then {[ "software" := sw ]} else ∅ in
  if truthy hw then <["hardware" := hw]> version else version.

(** The world once the merged document is written back, when it has
    changed. *)
Definition finish (p : path) (i : Info) (changed : bool) (w : world) : world :=
  if changed
  then World (<[p := Some (YMapping i)]> (fs w)) (calls w ++ [WriteText p i])
  else w.

(** The pointwise sum of a list of records. *)
Definition UpdateRecord_sum (rs : list UpdateRecord) : UpdateRecord :=
  foldr UpdateRecord_add UpdateRecord_default rs.

(** The pointwise sum as the specification words it, count by count over
    the integers, without the script's [__add__]. *)
Definition pointwise_sum (rs : list UpdateRecord) : UpdateRecord :=
  mkUpdateRecord (foldr Z.add 0 (created <$> rs))
                 (foldr Z.add 0 (updated <$> rs))
                 (foldr Z.add 0 (ignored <$> rs)).

(** The specification's [FileError] is an exception of its own that holds
    the error of the row: whatever else it is, it is not that error
    itself. *)
Definition wraps (outer cause : exn) : Prop := outer ≠ cause.


(** What the File Processor makes of each file of a batch, every file
    processed in the world its predecessors left. *)
Fixpoint files_results (catalog : gset string) (template : dir)
    (files : list (string * list raw_row)) (w : world)
    : list (string * result UpdateRecord) * world :=
  match files with
  | [] => ([], w)
  | (name, rows) :: files' =>
      let '(r, w1) := process_file catalog template rows w in
      let '(rs, w2) := files_results catalog template files' w1 in
      ((name, r) :: rs, w2)
  end.

(** The records of the files that completed without error. *)
Definition completed (rs : list (string * result UpdateRecord)) : list UpdateRecord :=
  omap (λ nr, match nr.2 with inr r => Some r | inl _ => None end) rs.

Definition status_of (r : result UpdateRecord) : status :=
  match r with inr _ => Done | inl err => Error err end.

(** A document only grows: its truthy fields stay, and its list of
    versions is extended at the end. *)
Definition grows (i i' : Info) : Prop :=
  (∀ k v, k ≠ "versions" → i !! k = Some v → truthy_value v = true → i' !! k = Some v)
  ∧ (∀ l, i !! "versions" = Some (VVersions l) →
       ∃ l', i' !! "versions" = Some (VVersions (l ++ l'))).

(** Every document of the tree is still there and has only grown. *)
Definition tree_grows (w w' : world) : Prop :=
  ∀ p i, fs w !! p = Some (Some (YMapping i)) →
    ∃ i', fs w' !! p = Some (Some (YMapping i')) ∧ grows i i'.

(** The version record as the specification words it: a key for every
    version that is present, that is, not [None]. *)
Definition version_when_present (sw hw : scalar) : Version :=
  let version : Version := if decide (sw = SNone) then ∅ else {[ "software" := sw ]} in
  if decide (hw = SNone) then version else <["hardware" := hw]> version.

(** Whether [process_row] calls [write_text], whether it calls
    [copytree], and whether the merge of the row into the document it loads
    sets [changed]. *)
Definition saves (catalog : gset string) (template : dir) (row : Row) (w : world) : bool :=
  existsb is_write (new_calls w (process_row catalog template row w).2).

Definition scaffolds (catalog : gset string) (template : dir) (row : Row) (w : world) : bool :=
  existsb is_copytree (new_calls w (process_row catalog template row w).2).

Definition changes (template : dir) (row : Row) (w : world) : bool :=
  match model_dir row with
  | inr p =>
      match loaded template w p with
      | Some i => match merge row i with inr (_, c) => c | inl _ => false end
      | None => false
      end
  | inl _ => false
  end.

(** ** Sample inputs *)

Module Sample.

Definition catalog : gset string := list_to_set ["hue"; "wled"; "zha"].

(** A template whose fields are all empty. *)
Definition blank : Info :=
  list_to_map
    [ ("manufacturer_raw", VScalar SNone); ("model_raw", VScalar SNone);
      ("manufacturer_name", VScalar SNone); ("model_name", VScalar SNone);
      ("has_via_device", VScalar SNone); ("has_suggested_area", VScalar SNone);
      ("has_configuration_url", VScalar SNone); ("entry_type", VScalar SNone);
      ("versions", VVersions []) ].

Definition template : dir := Some (YMapping blank).

(** A template that comes filled in, with the empty version recorded. *)
Definition filled : Info :=
  list_to_map
    [ ("manufacturer_raw", VScalar (SStr "Example")); ("model_raw", VScalar (SStr "Example"));
      ("manufacturer_name", VScalar (SStr "Example")); ("model_name", VScalar (SStr "Example"));
      ("has_via_device", VScalar (SBool true)); ("has_suggested_area", VScalar (SBool true));
      ("has_configuration_url", VScalar (SBool true)); ("entry_type", VScalar (SStr "device"));
      ("versions", VVersions [∅]) ].

Definition filled_template : dir := Some (YMapping filled).

(** The line [hue,Signify,LCT001,None,1,True,False,False,None]. *)
Definition raw : raw_row :=
  RawRow (list_to_map
    [ ("integration", Some "hue"); ("manufacturer", Some "Signify");
      ("model", Some "LCT001"); ("sw_version", Some "None"); ("hw_version", Some "1");
      ("has_via_device", Some "True"); ("has_suggested_area", Some "False");
      ("has_configuration_url", Some "False"); ("entry_type", Some "None") ]) None.

Definition row : Row :=
  list_to_map
    [ ("integration", SStr "hue"); ("manufacturer", SStr "Signify");
      ("model", SStr "LCT001"); ("sw_version", SNone); ("hw_version", SStr "1");
      ("has_via_device", SBool true); ("has_suggested_area", SBool false);
      ("has_configuration_url", SBool false); ("entry_type", SNone) ].

Definition dir_of_row : path := ["hue"; "Signify"; "LCT001"].

(** The same device reported without any version. *)
Definition row_no_version : Row := <["hw_version" := SNone]> row.

(** The same device reported with an empty software cell. *)
Definition row_empty_sw : Row := <["sw_version" := SStr ""]> row_no_version.

(** The same line for the integration [wled]. *)
Definition wled_row : Row := <["integration" := SStr "wled"]> row.

(** A line that is too short: no cell for [model] and the columns after
    it. *)
Definition short_raw : raw_row :=
  RawRow (list_to_map
    [ ("integration", Some "hue"); ("manufacturer", Some "Signify");
      ("model", None); ("sw_version", None); ("hw_version", None);
      ("has_via_device", None); ("has_suggested_area", None);
      ("has_configuration_url", None); ("entry_type", None) ]) None.

(** A file whose header has no column [entry_type]. *)
Definition raw_without_entry_type : raw_row :=
  RawRow (delete "entry_type" (cells raw)) None.

(** Nothing on disk, no call made. *)
Definition empty_world : world := World ∅ [].

(** The world after the sample row was merged into the empty one. *)
Definition world_after_row : world :=
  (process_row catalog template row empty_world).2.

(** A tree with one document, whose display name was set to ["Acme"]. *)
Definition acme : Info :=
  <["manufacturer_name" := VScalar (SStr "Acme")]> blank.

Definition acme_dir : path := ["hue"; "Other"; "X1"].

Definition acme_world : world :=
  World {[ acme_dir := Some (YMapping acme) ]} [].

Definition other_row : Row :=
  <["manufacturer" := SStr "Other"]> (<["model" := SStr "X1"]> row).

End Sample.

(** ** Vocabulary of the further properties *)

(** Whether a line validates to a row that [process_row] ignores. *)
Definition is_ignored (catalog : gset string) (raw : raw_row) : bool :=
  match DEVICE_SCHEMA raw with
  | inr row =>
      match row !! "integration" with
      | Some x => negb (in_set x (APPROVED_INTEGRATIONS catalog))
      | None => false
      end
  | inl _ => false
  end.

(** How many of the calls are of one kind. *)
Definition count_calls (kind : event → bool) (evs : list event) : Z :=
  Z.of_nat (length (List.filter kind evs)).

(** A document grows and keeps its keys. *)
Definition extends (i i' : Info) : Prop :=
  dom i' = dom i ∧ grows i i'.

(** Every document of the tree is still there, with its keys, and has only
    grown. *)
Definition tree_extends (w w' : world) : Prop :=
  ∀ p i, fs w !! p = Some (Some (YMapping i)) →
    ∃ i', fs w' !! p = Some (Some (YMapping i')) ∧ extends i i'.

(** The row has nothing more to give to the tree: its integration is not
    approved, or its directory holds a document that the merge of the row
    leaves as it is. *)
Definition settled (catalog : gset string) (row : Row) (w : world) : Prop :=
  ∃ p d, model_dir row = inr p ∧ row !! "integration" = Some (SStr d) ∧
    ((d ∉ APPROVED_INTEGRATIONS catalog)
     ∨ ∃ i, fs w !! p = Some (Some (YMapping i)) ∧ merge row i = inr (i, false)).

(** Every line of the file is valid and its row is settled. *)
Definition file_settled (catalog : gset string) (rows : list raw_row) (w : world) : Prop :=
  ∀ raw, raw ∈ rows → ∃ row, DEVICE_SCHEMA raw = inr row ∧ settled catalog row w.

(** [c in s] for a character. *)
Fixpoint string_has (c : ascii) (s : string) : bool :=
  match s with
  | EmptyString => false
  | String c' s' => Ascii.eqb c' c || string_has c s'
  end.

(** The exceptions of the script's own look-ups in the row and in the
    document, as against those of the file system and of the validator. *)
Definition script_error (e : exn) : bool :=
  match e with
  | KeyError _ | TypeError | AttributeError => true
  | _ => false
  end.

(** A name that is one directory of its own: not empty, not [.] or [..],
    and without a slash. *)
Definition proper_segment (s : string) : bool :=
  negb (bool_decide (s ∈ [""; "."; ".."])) && negb (string_has "/" s).

(** A path of three proper names. [pathlib] joins such names as [truediv]
    does, and two such paths that differ are two directories, neither of
    them inside the other. *)
Definition proper_path (p : path) : bool :=
  bool_decide (length p = 3%nat) && forallb proper_segment p.

(** A tree whose device directories all have proper paths. *)
Definition proper_tree (w : world) : Prop :=
  map_Forall (λ p _, proper_path p = true) (fs w).

(** A row whose directory has a proper path. *)
Definition proper_row (row : Row) : Prop :=
  ∀ p, model_dir row = inr p → proper_path p = true.

(** Further sample inputs. *)
Module Edge.

(** A line of a file whose header has no column [manufacturer], for an
    integration that is not approved. *)
Definition wled_row_without_manufacturer : Row :=
  delete "manufacturer" Sample.wled_row.

(** The sample row as it is read under a header without [entry_type]. *)
Definition row_without_entry_type : Row := delete "entry_type" Sample.row.

(** A device whose names hold slashes. *)
Definition slash_row : Row :=
  <["manufacturer" := SStr "A/B"]> (<["model" := SStr "X/1/2"]> Sample.row).

End Edge.

(** A decidable statement about given strings, lists and maps is settled
    by evaluating its decision procedure. *)
Ltac decide_by_computation :=
  apply (bool_decide_unpack _); vm_compute; exact I.

(** ** Results and loops *)

Lemma rbind_inr {A B} (r : result A) (k : A → result B) (b : B) :
  rbind r k = inr b → ∃ a, r = inr a ∧ k a = inr b.
Proof. destruct r as [e|a]; simpl; [discriminate | eauto]. Qed.

Lemma getitem_inr {V} (d : gmap string V) (key : string) (v : V) :
  getitem d key = inr v ↔ d !! key = Some v.
Proof. unfold getitem. destruct (d !! key); split; congruence. Qed.

Lemma for_each_app {A S} (body : S → A → result S) (l1 l2 : list A) (s : S) :
  for_each body (l1 ++ l2) s = rbind (for_each body l1 s) (for_each body l2).
Proof.
  revert s. induction l1 as [|x l1 IH]; intros s; simpl; [done|].
  destruct (body s x); simpl; auto.
Qed.

Lemma for_each_cons {A S} (body : S → A → result S) (x : A) (l : list A) (s : S) :
  for_each body (x :: l) s = rbind (body s x) (for_each body l).
Proof. done. Qed.

(** An invariant of the loop body is an invariant of the loop. *)
Lemma for_each_ind {A S} (body : S → A → result S) (P : S → S → Prop) :
  (∀ s, P s s) →
  (∀ s x s' s'', body s x = inr s' → P s' s'' → P s s'') →
  ∀ l s s', for_each body l s = inr s' → P s s'.
Proof.
  intros Hrefl Hstep l. induction l as [|x l IH]; intros s s' H; simpl in H.
  - by simplify_eq.
  - apply rbind_inr in H as (s1 & H1 & H2). eauto.
Qed.

(** ** The merge loop *)

(** The two ways in which the body of the loop can finish. *)
Lemma merge_field_inr row i c rk k i' c' :
  merge_field row (i, c) (rk, k) = inr (i', c') →
  (i' = i ∧ c' = c ∧
   ∃ old, i !! k = Some old ∧
     (truthy_value old = true ∨ ∃ x, row !! rk = Some x ∧ truthy x = false))
  ∨ (∃ old x, i !! k = Some old ∧ truthy_value old = false ∧
       row !! rk = Some x ∧ truthy x = true ∧
       i' = <[k := VScalar x]> i ∧ c' = true).
Proof.
  unfold merge_field. intros H.
  apply rbind_inr in H as (old & Hold%getitem_inr & H).
  destruct (truthy_value old) eqn:Ht.
  - simplify_eq. left. eauto 10.
  - apply rbind_inr in H as (x & Hx%getitem_inr & H).
    destruct (truthy x) eqn:Hx'; simplify_eq.
    + right. eauto 10.
    + left. eauto 10.
Qed.

(** The loop never removes or adds a key. *)
Lemma merge_fields_dom row pairs i c i' c' :
  for_each (merge_field row) pairs (i, c) = inr (i', c') → dom i' = dom i.
Proof.
  intros H.
  refine (for_each_ind (merge_field row) (λ s s', dom s'.1 = dom s.1) _ _ pairs (i, c) (i', c') H);
    [done|].
  clear. intros [i c] [rk k] [i1 c1] [i2 c2] Hb Hd. simpl in *.
  apply merge_field_inr in Hb as [(-> & _)|(old & x & Hold & _ & _ & _ & -> & _)]; [done|].
  rewrite Hd. by apply dom_insert_lookup_L.
Qed.

(** First write wins: a truthy field survives the loop. *)
Lemma merge_fields_keep row pairs i c i' c' k v :
  for_each (merge_field row) pairs (i, c) = inr (i', c') →
  i !! k = Some v → truthy_value v = true → i' !! k = Some v.
Proof.
  intros H Hk Hv. revert Hk.
  refine (for_each_ind (merge_field row)
            (λ s s', s.1 !! k = Some v → s'.1 !! k = Some v) _ _ pairs (i, c) (i', c') H);
    [done|].
  clear -Hv. intros [i c] [rk k'] [i1 c1] [i2 c2] Hb IH Hk. simpl in *.
  apply merge_field_inr in Hb as [(-> & _)|(old & x & Hold & Hf & _ & _ & -> & _)]; [auto|].
  apply IH. destruct (decide (k' = k)) as [->|Hne].
  - congruence.
  - by rewrite lookup_insert_ne.
Qed.

(** A field changes only by taking a truthy value of the row while it was
    falsy. *)
Lemma merge_fields_assign row pairs i c i' c' k :
  for_each (merge_field row) pairs (i, c) = inr (i', c') →
  i' !! k = i !! k
  ∨ ∃ rk old x, (rk, k) ∈ pairs ∧ i !! k = Some old ∧ truthy_value old = false ∧
      row !! rk = Some x ∧ truthy x = true ∧ i' !! k = Some (VScalar x).
Proof.
  revert i c. induction pairs as [|[rk k'] pairs IH]; intros i c H; simpl in H.
  - simplify_eq. by left.
  - apply rbind_inr in H as ([i1 c1] & Hb & H).
    apply merge_field_inr in Hb as [(-> & -> & _)|(old & x & Hold & Hf & Hx & Hx' & -> & ->)].
    + destruct (IH _ _ H) as [|(rk' & old & x & Hin & ?)]; [by left|].
      right. exists rk', old, x. split; [by apply list_elem_of_further|done].
    + destruct (decide (k' = k)) as [->|Hne].
      * right. exists rk, old, x. split; [apply list_elem_of_here|].
        split_and!; try done.
        eapply merge_fields_keep; [exact H| by rewrite lookup_insert_eq | done].
      * destruct (IH _ _ H) as [Heq|(rk' & old' & x' & Hin & Hl & ?)].
        -- left. by rewrite Heq, lookup_insert_ne.
        -- right. exists rk', old', x'. rewrite lookup_insert_ne in Hl by done.
           split; [by apply list_elem_of_further|done].
Qed.

(** [changed] is set exactly when the document is no longer the same. *)
Lemma merge_fields_changed row pairs i c i' c' :
  for_each (merge_field row) pairs (i, c) = inr (i', c') →
  c' = true ↔ c = true ∨ i' ≠ i.
Proof.
  revert i c. induction pairs as [|[rk k] pairs IH]; intros i c H; simpl in H.
  - simplify_eq. split; [by left | by intros [?|?]].
  - apply rbind_inr in H as ([i1 c1] & Hb & H).
    pose proof (IH _ _ H) as IH'.
    apply merge_field_inr in Hb as [(-> & -> & _)|(old & x & Hold & Hf & Hx & Hx' & -> & ->)]; [done|].
    split; [intros _; right | intros _; apply IH'; by left].
    intros ->.
    assert (i !! k = Some (VScalar x)) as Hk.
    { eapply merge_fields_keep; [exact H| by rewrite lookup_insert_eq | done]. }
    rewrite Hold in Hk. simplify_eq. simpl in Hf. congruence.
Qed.

(** Running the loop on its own result changes nothing. *)
Lemma merge_fields_idem row pairs i c i' c' c2 :
  for_each (merge_field row) pairs (i, c) = inr (i', c') →
  for_each (merge_field row) pairs (i', c2) = inr (i', c2).
Proof.
  revert i c. induction pairs as [|[rk k] pairs IH]; intros i c H; simpl in H; [done|].
  apply rbind_inr in H as ([i1 c1] & Hb & H). rewrite for_each_cons.
  assert (merge_field row (i', c2) (rk, k) = inr (i', c2)) as ->; [|simpl; eauto].
  unfold merge_field.
  apply merge_field_inr in Hb as [(-> & -> & old & Hold & Hcase)|(old & x & Hold & Hf & Hx & Hx' & -> & ->)].
  - destruct Hcase as [Ht|(x & Hx & Hx')].
    + rewrite (proj2 (getitem_inr _ _ _) (merge_fields_keep _ _ _ _ _ _ _ _ H Hold Ht)).
      simpl. by rewrite Ht.
    + assert (is_Some (i' !! k)) as [v Hv].
      { apply elem_of_dom. rewrite (merge_fields_dom _ _ _ _ _ _ H). by apply elem_of_dom. }
      rewrite (proj2 (getitem_inr _ _ _) Hv). simpl.
      destruct (truthy_value v); [done|].
      rewrite (proj2 (getitem_inr _ _ _) Hx). simpl. by rewrite Hx'.
  - assert (i' !! k = Some (VScalar x)) as Hk.
    { eapply merge_fields_keep; [exact H| by rewrite lookup_insert_eq | done]. }
    rewrite (proj2 (getitem_inr _ _ _) Hk). simpl. by rewrite Hx'.
Qed.

(** ** The version step *)

Lemma build_version_inr row v :
  build_version row = inr v ↔
  ∃ sw hw, row !! "sw_version" = Some sw ∧ row !! "hw_version" = Some hw ∧
           v = version_of sw hw.
Proof.
  unfold build_version, version_of. split.
  - intros (sw & Hsw%getitem_inr & H)%rbind_inr.
    apply rbind_inr in H as (hw & Hhw%getitem_inr & H).
    exists sw, hw. split_and!; [done..|]. by simplify_eq.
  - intros (sw & hw & Hsw%getitem_inr & Hhw%getitem_inr & ->).
    rewrite Hsw. simpl. rewrite Hhw. done.
Qed.

Lemma merge_version_inr v i c i' c' :
  merge_version v (i, c) = inr (i', c') ↔
  ∃ l, i !! "versions" = Some (VVersions l) ∧
    if bool_decide (v ∈ l) then i' = i ∧ c' = c
    else i' = <["versions" := VVersions (l ++ [v])]> i ∧ c' = true.
Proof.
  unfold merge_version. split.
  - intros (vs & Hvs%getitem_inr & H)%rbind_inr.
    destruct vs as [x|l]; [done|]. exists l. split; [done|].
    case_bool_decide; by simplify_eq.
  - intros (l & Hl%getitem_inr & H). rewrite Hl. simpl.
    case_bool_decide; by destruct H as [-> ->].
Qed.

(** The loop leaves alone what is under a key that is no field of it. *)
Lemma merge_fields_other row pairs i c i' c' k :
  k ∉ pairs.*2 →
  for_each (merge_field row) pairs (i, c) = inr (i', c') →
  i' !! k = i !! k.
Proof.
  intros Hk H. destruct (merge_fields_assign _ _ _ _ _ _ k H) as [|(rk & ? & ? & Hin & _)]; [done|].
  destruct Hk. apply list_elem_of_fmap. by exists (rk, k).
Qed.

Lemma merge_fields_frame row pairs i c i' c' k v :
  k ∉ pairs.*2 →
  for_each (merge_field row) pairs (i, c) = inr (i', c') →
  for_each (merge_field row) pairs (<[k := v]> i, c) = inr (<[k := v]> i', c').
Proof.
  revert i c. induction pairs as [|[rk k'] pairs IH]; intros i c Hk H; simpl in H.
  - by simplify_eq.
  - apply rbind_inr in H as ([i1 c1] & Hb & H). rewrite for_each_cons.
    rewrite fmap_cons in Hk. apply not_elem_of_cons in Hk as [Hne Hk]. simpl in Hne.
    assert (merge_field row (<[k := v]> i, c) (rk, k') = inr (<[k := v]> i1, c1)) as ->;
      [|simpl; eauto].
    unfold merge_field in *. unfold getitem at 1 in Hb. unfold getitem at 1.
    rewrite lookup_insert_ne by done.
    destruct (i !! k') as [old|]; [simpl in *|done].
    destruct (truthy_value old); [by simplify_eq|].
    destruct (getitem row rk) as [|x]; [done|simpl in *].
    destruct (truthy x); simplify_eq; [|done].
    by rewrite insert_insert_ne.
Qed.

(** The loop runs to its end when the keys it reads are there. *)
Lemma merge_fields_total row pairs i c :
  (∀ rk k, (rk, k) ∈ pairs → is_Some (row !! rk) ∧ is_Some (i !! k)) →
  ∃ i' c', for_each (merge_field row) pairs (i, c) = inr (i', c').
Proof.
  revert i c. induction pairs as [|[rk k] pairs IH]; intros i c Hkeys; [by eexists _, _|].
  destruct (Hkeys rk k) as [[x Hx] [old Hold]]; [apply list_elem_of_here|].
  assert (∃ i1 c1, merge_field row (i, c) (rk, k) = inr (i1, c1)) as (i1 & c1 & Hb).
  { unfold merge_field, getitem. rewrite Hold. simpl.
    destruct (truthy_value old); [by eexists _, _|]. rewrite Hx. simpl.
    destruct (truthy x); by eexists _, _. }
  rewrite for_each_cons, Hb. simpl. apply IH. intros rk' k' Hin.
  destruct (Hkeys rk' k') as [? Hs]; [by apply list_elem_of_further|]. split; [done|].
  apply elem_of_dom. apply elem_of_dom in Hs.
  by rewrite (merge_fields_dom row [(rk, k)] i c i1 c1) by (by rewrite for_each_cons, Hb).
Qed.

(** With distinct fields, a falsy field takes the truthy value of its
    column. *)
Lemma merge_fields_fill row pairs i c i' c' rk k old x :
  NoDup pairs.*2 → (rk, k) ∈ pairs →
  for_each (merge_field row) pairs (i, c) = inr (i', c') →
  i !! k = Some old → truthy_value old = false →
  row !! rk = Some x → truthy x = true →
  i' !! k = Some (VScalar x).
Proof.
  revert i c. induction pairs as [|[rk' k'] pairs IH]; intros i c Hnd Hin H Hold Hf Hx Hx'.
  - by apply elem_of_nil in Hin.
  - rewrite fmap_cons in Hnd. apply NoDup_cons in Hnd as [Hk' Hnd]. simpl in *.
    apply rbind_inr in H as ([i1 c1] & Hb & H).
    apply elem_of_cons in Hin as [[= <- <-]|Hin].
    + unfold merge_field, getitem in Hb. rewrite Hold in Hb. simpl in Hb.
      rewrite Hf, Hx in Hb. simpl in Hb. rewrite Hx' in Hb. simplify_eq.
      eapply merge_fields_keep; [exact H|by rewrite lookup_insert_eq|done].
    + assert (k' ≠ k) as Hne.
      { intros ->. apply Hk'. apply list_elem_of_fmap. by exists (rk, k). }
      eapply (IH i1 c1); try done.
      apply merge_field_inr in Hb as [(-> & _)|(? & ? & _ & _ & _ & _ & -> & _)]; [done|].
      by rewrite lookup_insert_ne.
Qed.

(** ** The merge of a row into a document *)

Lemma versions_no_field : "versions" ∉ FIELD_PAIRS.*2.
Proof. decide_by_computation. Qed.

Lemma info_keys_NoDup : NoDup FIELD_PAIRS.*2.
Proof. decide_by_computation. Qed.

Lemma with_entry_type_other row k :
  k ≠ "entry_type" → with_entry_type row !! k = row !! k.
Proof.
  intros Hk. unfold with_entry_type.
  destruct (row !! "entry_type") as [x|]; [|done].
  destruct (truthy x); [done|]. by rewrite lookup_insert_ne.
Qed.

Lemma with_entry_type_idem row :
  with_entry_type (with_entry_type row) = with_entry_type row.
Proof.
  unfold with_entry_type at 2 3.
  destruct (row !! "entry_type") as [x|] eqn:He.
  - destruct (truthy x) eqn:Ht.
    + unfold with_entry_type. by rewrite He, Ht.
    + unfold with_entry_type. by rewrite lookup_insert_eq.
  - unfold with_entry_type. by rewrite He.
Qed.

(** What a successful merge went through. *)
Lemma merge_inr row i i' c :
  merge row i = inr (i', c) ↔
  ∃ i1 c1 sw hw l,
    is_Some (row !! "entry_type") ∧
    for_each (merge_field (with_entry_type row)) FIELD_PAIRS (i, false) = inr (i1, c1) ∧
    row !! "sw_version" = Some sw ∧ row !! "hw_version" = Some hw ∧
    i1 !! "versions" = Some (VVersions l) ∧
    if bool_decide (version_of sw hw ∈ l) then i' = i1 ∧ c = c1
    else i' = <["versions" := VVersions (l ++ [version_of sw hw])]> i1 ∧ c = true.
Proof.
  unfold merge. split.
  - intros (e & He%getitem_inr & H)%rbind_inr.
    apply rbind_inr in H as ([i1 c1] & Hloop & H).
    apply rbind_inr in H as (v & (sw & hw & Hsw & Hhw & ->)%build_version_inr & H).
    apply merge_version_inr in H as (l & Hl & H).
    rewrite with_entry_type_other in Hsw, Hhw by done.
    exists i1, c1, sw, hw, l. eauto 10.
  - intros (i1 & c1 & sw & hw & l & [e He%getitem_inr] & Hloop & Hsw & Hhw & Hl & H).
    rewrite He. cbn [rbind]. rewrite Hloop. cbn [rbind].
    assert (build_version (with_entry_type row) = inr (version_of sw hw)) as ->.
    { apply build_version_inr. exists sw, hw. by rewrite !with_entry_type_other. }
    cbn [rbind]. apply merge_version_inr. eauto.
Qed.

(** First write wins: whatever the row, a truthy field of the document is
    the same after the merge. *)
Lemma merge_keep row i i' c k v :
  merge row i = inr (i', c) → k ≠ "versions" →
  i !! k = Some v → truthy_value v = true → i' !! k = Some v.
Proof.
  intros (i1 & c1 & sw & hw & l & _ & Hloop & _ & _ & _ & H)%merge_inr Hk Hv Ht.
  pose proof (merge_fields_keep _ _ _ _ _ _ _ _ Hloop Hv Ht) as H1.
  case_bool_decide; destruct H as [-> ->]; [done|]. by rewrite lookup_insert_ne.
Qed.

(** Any other key than the eight fields and ["versions"] is left alone. *)
Lemma merge_other row i i' c k :
  merge row i = inr (i', c) → k ≠ "versions" → k ∉ INFO_KEYS → i' !! k = i !! k.
Proof.
  intros (i1 & c1 & sw & hw & l & _ & Hloop & _ & _ & _ & H)%merge_inr Hk Hk'.
  pose proof (merge_fields_other _ _ _ _ _ _ _ Hk' Hloop) as H1.
  case_bool_decide; destruct H as [-> ->]; [done|]. by rewrite lookup_insert_ne.
Qed.

(** A field is filled from one column only. *)
Lemma field_column rk rk' k :
  (rk, k) ∈ FIELD_PAIRS → (rk', k) ∈ FIELD_PAIRS → rk' = rk.
Proof.
  unfold FIELD_PAIRS. intros Hin Hin'.
  repeat (apply elem_of_cons in Hin as [Hin|Hin]; [simplify_eq|]);
    try (by apply elem_of_nil in Hin);
    repeat (apply elem_of_cons in Hin' as [Hin'|Hin']; [by simplify_eq|]);
    by apply elem_of_nil in Hin'.
Qed.

Lemma field_not_versions rk k : (rk, k) ∈ FIELD_PAIRS → k ≠ "versions".
Proof.
  intros Hin ->. apply versions_no_field. apply list_elem_of_fmap.
  by exists (rk, "versions").
Qed.

(** A field differs after the merge only by having taken the truthy value
    of its column while it was falsy. *)
Lemma merge_assign row i i' c rk k :
  merge row i = inr (i', c) → (rk, k) ∈ FIELD_PAIRS →
  i' !! k = i !! k
  ∨ ∃ old x, i !! k = Some old ∧ truthy_value old = false ∧
      with_entry_type row !! rk = Some x ∧ truthy x = true ∧
      i' !! k = Some (VScalar x).
Proof.
  intros (i1 & c1 & sw & hw & l & _ & Hloop & _ & _ & _ & H)%merge_inr Hin.
  assert (i' !! k = i1 !! k) as ->.
  { case_bool_decide; destruct H as [-> ->]; [done|].
    rewrite lookup_insert_ne; [done|]. intros <-. by eapply field_not_versions. }
  destruct (merge_fields_assign _ _ _ _ _ _ k Hloop)
    as [Heq|(rk' & old & x & Hin' & ?)]; [by left|].
  right. rewrite (field_column _ _ _ Hin Hin') in *. by exists old, x.
Qed.

(** And a falsy field does take the truthy value of its column. *)
Lemma merge_fill row i i' c rk k old x :
  merge row i = inr (i', c) → (rk, k) ∈ FIELD_PAIRS →
  i !! k = Some old → truthy_value old = false →
  with_entry_type row !! rk = Some x → truthy x = true →
  i' !! k = Some (VScalar x).
Proof.
  intros (i1 & c1 & sw & hw & l & _ & Hloop & _ & _ & _ & H)%merge_inr Hin Hold Hf Hx Hx'.
  assert (i' !! k = i1 !! k) as ->.
  { case_bool_decide; destruct H as [-> ->]; [done|].
    rewrite lookup_insert_ne; [done|]. intros <-. by eapply field_not_versions. }
  eapply merge_fields_fill; eauto using info_keys_NoDup.
Qed.

(** [changed] tells whether the merged document differs from the loaded
    one. *)
Lemma merge_changed row i i' c :
  merge row i = inr (i', c) → c = true ↔ i' ≠ i.
Proof.
  intros (i1 & c1 & sw & hw & l & _ & Hloop & _ & _ & Hl & H)%merge_inr.
  pose proof (merge_fields_changed _ _ _ _ _ _ Hloop) as Hc.
  pose proof (merge_fields_other _ _ _ _ _ _ _ versions_no_field Hloop) as Hv.
  case_bool_decide; destruct H as [-> ->].
  - rewrite Hc. split; [by intros [?|?] | by right].
  - split; [intros _|done]. intros Heq.
    apply (f_equal (λ m : Info, m !! "versions")) in Heq.
    rewrite lookup_insert_eq, <-Hv, Hl in Heq. simplify_eq.
    apply (f_equal length) in Heq. rewrite length_app in Heq. simpl in Heq. lia.
Qed.

(** Merging the row again into the merged document changes nothing. *)
Lemma merge_idem row i i' c :
  merge row i = inr (i', c) → merge row i' = inr (i', false).
Proof.
  intros (i1 & c1 & sw & hw & l & He & Hloop & Hsw & Hhw & Hl & H)%merge_inr.
  apply merge_inr.
  pose proof (merge_fields_idem _ _ _ _ _ _ false Hloop) as Hidem.
  case_bool_decide as Hin; destruct H as [-> ->].
  - exists i1, false, sw, hw, l. split_and!; try done. by rewrite bool_decide_true.
  - exists (<["versions" := VVersions (l ++ [version_of sw hw])]> i1), false, sw, hw,
      (l ++ [version_of sw hw]).
    split_and!; try done.
    + by apply merge_fields_frame; [apply versions_no_field|].
    + by rewrite lookup_insert_eq.
    + rewrite bool_decide_true; [done|]. apply elem_of_app. right. apply list_elem_of_here.
Qed.

(** The list of versions after the merge: the version of the row is put
    at the end unless the list has it. *)
Lemma merge_versions row i i' c :
  merge row i = inr (i', c) →
  ∃ sw hw l, row !! "sw_version" = Some sw ∧ row !! "hw_version" = Some hw ∧
    i !! "versions" = Some (VVersions l) ∧
    i' !! "versions" = Some (VVersions
      (if bool_decide (version_of sw hw ∈ l) then l else l ++ [version_of sw hw])).
Proof.
  intros (i1 & c1 & sw & hw & l & _ & Hloop & Hsw & Hhw & Hl & H)%merge_inr.
  pose proof (merge_fields_other _ _ _ _ _ _ _ versions_no_field Hloop) as Hv.
  exists sw, hw, l. split_and!; try done; [congruence|].
  case_bool_decide; destruct H as [-> ->]; [done|]. by rewrite lookup_insert_eq.
Qed.

(** ** Valid rows and well-shaped documents *)

Lemma has_type_inv ty row k :
  has_type ty row k = true → ∃ x, row !! k = Some x ∧ ty x = true.
Proof. unfold has_type. destruct (row !! k) as [x|]; [eauto|done]. Qed.

Lemma DeviceRow_str row k :
  DeviceRow row = true → k ∈ ["integration"; "manufacturer"; "model"] →
  ∃ s, row !! k = Some (SStr s).
Proof.
  unfold DeviceRow. rewrite !andb_true_iff.
  intros [[[[[[[[H1 H2] H3] _] _] _] _] _] _] Hk.
  repeat (apply elem_of_cons in Hk as [->|Hk];
          [match goal with
           | H : has_type is_str row ?k = true |- ∃ _, row !! ?k = _ =>
               apply has_type_inv in H as ([| |s] & H & ?); [done..|by exists s]
           end|]).
  by apply elem_of_nil in Hk.
Qed.

Lemma DeviceRow_has row k :
  DeviceRow row = true → k ∈ SCHEMA_KEYS → is_Some (row !! k).
Proof.
  unfold DeviceRow, SCHEMA_KEYS. rewrite !andb_true_iff.
  intros [[[[[[[[H1 H2] H3] H4] H5] H6] H7] H8] H9] Hk.
  repeat (apply elem_of_cons in Hk as [->|Hk];
          [match goal with
           | H : has_type _ row ?k = true |- is_Some (row !! ?k) =>
               apply has_type_inv in H as (x & -> & _); by exists x
           end|]).
  by apply elem_of_nil in Hk.
Qed.

Lemma Document_inv i :
  Document i = true ↔
  (∀ k, k ∈ INFO_KEYS → is_Some (i !! k)) ∧ ∃ l, i !! "versions" = Some (VVersions l).
Proof.
  unfold Document. rewrite andb_true_iff, forallb_forall. split.
  - intros [Hk Hv]. split.
    + intros k Hin%list_elem_of_In. by apply Hk, bool_decide_eq_true in Hin.
    + destruct (i !! "versions") as [[|l]|]; [done|by exists l|done].
  - intros [Hk [l ->]]. split; [|done].
    intros k Hin%list_elem_of_In. by apply bool_decide_eq_true, Hk.
Qed.

Lemma with_entry_type_is_Some row k :
  is_Some (row !! k) → is_Some (with_entry_type row !! k).
Proof.
  intros Hk. destruct (decide (k = "entry_type")) as [->|Hne].
  - unfold with_entry_type. destruct Hk as [x Hx]. rewrite Hx.
    destruct (truthy x); [by rewrite Hx|by rewrite lookup_insert_eq].
  - by rewrite with_entry_type_other.
Qed.

Lemma merge_dom row i i' c : merge row i = inr (i', c) → dom i' = dom i.
Proof.
  intros (i1 & c1 & sw & hw & l & _ & Hloop & _ & _ & Hl & H)%merge_inr.
  apply merge_fields_dom in Hloop.
  case_bool_decide; destruct H as [-> ->]; [done|].
  rewrite dom_insert_lookup_L; [done|by eexists].
Qed.

(** A valid row merges into a well-shaped document without an exception,
    and the document stays well-shaped. *)
Lemma merge_total row i :
  DeviceRow row = true → Document i = true →
  ∃ i' c, merge row i = inr (i', c) ∧ Document i' = true.
Proof.
  intros Hrow [Hkeys [l Hl]]%Document_inv.
  destruct (merge_fields_total (with_entry_type row) FIELD_PAIRS i false)
    as (i1 & c1 & Hloop).
  { intros rk k Hin. split.
    - apply with_entry_type_is_Some, DeviceRow_has; [done|].
      clear -Hin. unfold FIELD_PAIRS, SCHEMA_KEYS in *.
      repeat (apply elem_of_cons in Hin as [Hin|Hin];
              [simplify_eq; decide_by_computation|]).
      by apply elem_of_nil in Hin.
    - apply Hkeys, list_elem_of_fmap. by exists (rk, k). }
  destruct (DeviceRow_has row "sw_version") as [sw Hsw];
    [done|decide_by_computation|].
  destruct (DeviceRow_has row "hw_version") as [hw Hhw];
    [done|decide_by_computation|].
  pose proof (merge_fields_other _ _ _ _ _ _ _ versions_no_field Hloop) as Hv.
  set (v := version_of sw hw).
  assert (∃ i' c, merge row i = inr (i', c)) as (i' & c & Hm).
  { destruct (decide (v ∈ l)) as [Hin|Hin].
    - exists i1, c1. apply merge_inr. exists i1, c1, sw, hw, l.
      split_and!; try done; [|congruence|by rewrite bool_decide_true].
      apply DeviceRow_has; [done|]. decide_by_computation.
    - exists (<["versions" := VVersions (l ++ [v])]> i1), true.
      apply merge_inr. exists i1, c1, sw, hw, l.
      split_and!; try done; [|congruence|by rewrite bool_decide_false].
      apply DeviceRow_has; [done|]. decide_by_computation. }
  exists i', c. split; [done|]. apply Document_inv. split.
  - intros k Hk. apply elem_of_dom. rewrite (merge_dom _ _ _ _ Hm).
    by apply elem_of_dom, Hkeys.
  - destruct (merge_versions _ _ _ _ Hm) as (? & ? & ? & _ & _ & _ & Hv'). eauto.
Qed.

(** ** [process_row] in closed form *)

Lemma model_dir_inr row p :
  model_dir row = inr p ↔
  ∃ d m mo, row !! "integration" = Some (SStr d) ∧
    row !! "manufacturer" = Some (SStr m) ∧ row !! "model" = Some (SStr mo) ∧
    p = [d; replace_char "/" "_" m; replace_char "/" "_" mo].
Proof.
  unfold model_dir. split.
  - intros (x & Hd%getitem_inr & H)%rbind_inr.
    apply rbind_inr in H as (p1 & Hp1 & H).
    apply rbind_inr in H as (y & Hm%getitem_inr & H).
    apply rbind_inr in H as (m' & Hm' & H).
    apply rbind_inr in H as (p2 & Hp2 & H).
    apply rbind_inr in H as (z & Hmo%getitem_inr & H).
    apply rbind_inr in H as (mo' & Hmo' & H).
    destruct x as [| |d]; try done. destruct y as [| |m]; try done.
    destruct z as [| |mo]; try done. simpl in *. simplify_eq.
    by exists d, m, mo.
  - intros (d & m & mo & Hd%getitem_inr & Hm%getitem_inr & Hmo%getitem_inr & ->).
    rewrite Hd. simpl. rewrite Hm. simpl. rewrite Hmo. done.
Qed.

Section Properties.

(** The catalog of integrations and the template directory of the run. *)
Context (catalog : gset string) (template : dir).

Local Abbreviation APPROVED := (APPROVED_INTEGRATIONS catalog).

Lemma after_load_lookup w p :
  fs (after_load template w p) !! p =
  match fs w !! p with Some d => Some d | None => Some template end.
Proof.
  unfold after_load. destruct (fs w !! p) eqn:H; simpl; [done|].
  by rewrite lookup_insert_eq.
Qed.

(** The steps of [process_row] after the load, on a document that is a
    mapping: they are [merge], then the write when [changed] is set. *)
Lemma process_row_tail (row : Row) (p : path) (i : Info) (r0 : UpdateRecord) (w1 : world) :
  bind (lift (getitem row "entry_type"))
    (λ entry_type,
       let row := if negb (truthy entry_type)
                  then <["entry_type" := SStr "device"]> row else row in
       bind (ret i)
         (λ info,
            bind (lift (for_each (merge_field row) FIELD_PAIRS (info, false)))
              (λ st, let '(info, changed) := st in
                 bind (lift (build_version row))
                   (λ version,
                      bind (lift (merge_version version (info, changed)))
                        (λ st, let '(info, changed) := st in
                           if changed then
                             bind (write_text_dump p info)
                               (λ _, if negb (bool_decide (created r0 ≠ 0))
                                     then ret (mkUpdateRecord (created r0) 1 (ignored r0))
                                     else ret r0)
                           else ret r0))))) w1
  = match merge row i with
    | inr (i', c) =>
        (inr (if c then
                if negb (bool_decide (created r0 ≠ 0))
                then mkUpdateRecord (created r0) 1 (ignored r0) else r0
              else r0),
         finish p i' c w1)
    | inl e => (inl e, w1)
    end.
Proof.
  unfold merge, bind at 1. destruct (getitem row "entry_type") as [e|et] eqn:Het;
    [done|]. cbn [lift ret rbind].
  assert ((if negb (truthy et) then <["entry_type" := SStr "device"]> row else row)
          = with_entry_type row) as ->.
  { apply getitem_inr in Het. unfold with_entry_type. rewrite Het. by destruct (truthy et). }
  unfold bind at 1. cbn [ret]. unfold bind at 1.
  destruct (for_each _ FIELD_PAIRS (i, false)) as [e|[i1 c1]]; [done|]. cbn [lift ret rbind].
  unfold bind at 1. destruct (build_version _) as [e|v]; [done|]. cbn [lift ret rbind].
  unfold bind at 1. destruct (merge_version v (i1, c1)) as [e|[i' c]]; [done|].
  cbn [lift ret]. unfold finish. destruct c; [|done].
  unfold bind, write_text_dump, ret. by destruct (negb _).
Qed.

(** [process_row] with its steps on the world written out: it stops at
    the first exception, returns at once for an integration that is not
    approved, and otherwise loads a document, merges the row into it and
    writes the document back when it has changed. *)
Lemma process_row_eq row w :
  process_row catalog template row w =
  match model_dir row with
  | inl e => (inl e, w)
  | inr p =>
      if in_set (default SNone (row !! "integration")) APPROVED then
        let w1 := after_load template w p in
        match fs w1 !! p with
        | Some (Some (YMapping i)) =>
            match merge row i with
            | inr (i', c) =>
                (inr (outcome (bool_decide (is_Some (fs w !! p))) c), finish p i' c w1)
            | inl e => (inl e, w1)
            end
        | Some (Some YOther) =>
            (inl (match getitem row "entry_type" with inl e => e | inr _ => TypeError end), w1)
        | _ => (inl FileNotFoundError, w1)
        end
      else (inr (mkUpdateRecord 0 0 1), w)
  end.
Proof.
  unfold process_row.
  unfold bind at 1. destruct (model_dir row) as [e|p] eqn:Hp; [done|].
  apply model_dir_inr in Hp as (d & m & mo & Hd & Hm & Hmo & ->).
  set (p := [d; _; _]). cbn [lift ret].
  unfold bind at 1. unfold getitem at 1. rewrite Hd. cbn [lift ret default from_option id].
  destruct (in_set (SStr d) APPROVED) eqn:Happ; cbn [negb]; [|reflexivity].
  unfold bind at 1. unfold path_exists at 1. cbn [fs calls].
  rewrite after_load_lookup. unfold after_load.
  destruct (fs w !! p) as [dr|] eqn:Hfs.
  - (* the directory exists *)
    rewrite bool_decide_true by eauto. cbn [negb].
    unfold bind at 1. cbn [ret]. unfold bind at 1.
    unfold safe_load_read_text at 1. cbn [fs calls]. rewrite Hfs, <-app_assoc. cbn [app].
    destruct dr as [[i|]|]; [| |done].
    + etrans; [exact (process_row_tail row p i UpdateRecord_default _)|].
      by destruct (merge row i) as [e|[i' [|]]].
    + unfold bind at 1. destruct (getitem row "entry_type") as [e|et]; [done|].
      cbn [lift ret]. unfold bind at 1. done.
  - (* the directory is made from the template *)
    rewrite bool_decide_false by (by intros [? ?]). cbn [negb].
    unfold bind at 1. unfold bind at 1. unfold copytree at 1. cbn [fs calls].
    rewrite Hfs. cbn [ret].
    unfold bind at 1. unfold safe_load_read_text at 1. cbn [fs calls].
    rewrite lookup_insert_eq, <-!app_assoc. cbn [app].
    destruct template as [[i|]|]; [| |done].
    + etrans;
        [exact (process_row_tail row p i
                  (mkUpdateRecord 1 (updated UpdateRecord_default)
                     (ignored UpdateRecord_default)) _)|].
      by destruct (merge row i) as [e|[i' [|]]].
    + unfold bind at 1. destruct (getitem row "entry_type") as [e|et]; [done|].
      cbn [lift ret]. unfold bind at 1. done.
Qed.

Lemma approved_iff d : d ∈ APPROVED ↔ d ∈ catalog ∧ d ≠ "wled" ∧ d ≠ "fritz".
Proof.
  unfold APPROVED_INTEGRATIONS. rewrite elem_of_filter, !not_elem_of_cons.
  pose proof (not_elem_of_nil d). tauto.
Qed.

Lemma in_set_approved d : in_set (SStr d) APPROVED = true ↔ d ∈ APPROVED.
Proof. simpl. apply bool_decide_eq_true. Qed.

Lemma loaded_after_load w p i :
  loaded template w p = Some i ↔
  fs (after_load template w p) !! p = Some (Some (YMapping i)).
Proof.
  rewrite after_load_lookup. unfold loaded.
  destruct (fs w !! p) as [[[?|]|]|]; [naive_solver..|].
  destruct template as [[?|]|]; naive_solver.
Qed.

(** The row of an integration that is not approved. *)
Lemma process_row_not_approved row w p d :
  model_dir row = inr p → row !! "integration" = Some (SStr d) → d ∉ APPROVED →
  process_row catalog template row w = (inr (mkUpdateRecord 0 0 1), w).
Proof.
  intros Hp Hd Happ. rewrite process_row_eq, Hp, Hd. simpl.
  by rewrite bool_decide_false.
Qed.

(** The row of an approved integration whose merge succeeds. *)
Lemma process_row_approved row w p d i i' c :
  model_dir row = inr p → row !! "integration" = Some (SStr d) → d ∈ APPROVED →
  loaded template w p = Some i → merge row i = inr (i', c) →
  process_row catalog template row w =
  (inr (outcome (bool_decide (is_Some (fs w !! p))) c),
   finish p i' c (after_load template w p)).
Proof.
  intros Hp Hd Happ Hl%loaded_after_load Hm.
  rewrite process_row_eq, Hp, Hd. cbn [default from_option id].
  rewrite (proj2 (in_set_approved d) Happ). cbv zeta. by rewrite Hl, Hm.
Qed.

(** And these are the only two ways in which [process_row] returns. *)
Lemma process_row_inr row w r w' :
  process_row catalog template row w = (inr r, w') →
  ∃ p d, model_dir row = inr p ∧ row !! "integration" = Some (SStr d) ∧
    (((d ∉ APPROVED) ∧ r = mkUpdateRecord 0 0 1 ∧ w' = w)
     ∨ (d ∈ APPROVED ∧ ∃ i i' c,
          loaded template w p = Some i ∧ merge row i = inr (i', c) ∧
          r = outcome (bool_decide (is_Some (fs w !! p))) c ∧
          w' = finish p i' c (after_load template w p))).
Proof.
  rewrite process_row_eq. destruct (model_dir row) as [e|p] eqn:Hp; [done|].
  pose proof Hp as (d & m & mo & Hd & _)%model_dir_inr. rewrite Hd.
  cbn [default from_option id]. intros H. exists p, d. split_and!; [done..|].
  destruct (in_set (SStr d) APPROVED) eqn:Happ.
  - right. apply in_set_approved in Happ. split; [done|]. cbv zeta in H.
    destruct (fs (after_load template w p) !! p) as [[[i|]|]|] eqn:Hl; try done.
    apply loaded_after_load in Hl.
    destruct (merge row i) as [e|[i' c]] eqn:Hm; [done|].
    exists i, i', c. by simplify_eq.
  - left. split; [|by simplify_eq]. intros Hin%in_set_approved. congruence.
Qed.

(** The world [process_row] leaves, whether it returns or raises. *)
Lemma process_row_world row w :
  (process_row catalog template row w).2 = w
  ∨ ∃ p, model_dir row = inr p ∧
      ((process_row catalog template row w).2 = after_load template w p
       ∨ ∃ i i', loaded template w p = Some i ∧ merge row i = inr (i', true) ∧
           (process_row catalog template row w).2
           = finish p i' true (after_load template w p)).
Proof.
  rewrite process_row_eq. destruct (model_dir row) as [e|p] eqn:Hp; [by left|].
  destruct (in_set _ _); [|by left]. right. exists p. split; [done|]. cbv zeta.
  destruct (fs (after_load template w p) !! p) as [[[i|]|]|] eqn:Hl; try (by left).
  apply loaded_after_load in Hl.
  destruct (merge row i) as [e|[i' [|]]] eqn:Hm; [by left| |(by left)].
  right. by exists i, i'.
Qed.

Lemma new_calls_app w fs' evs :
  new_calls w (World fs' (calls w ++ evs)) = evs.
Proof. unfold new_calls. simpl. by rewrite drop_app_length. Qed.

Lemma after_load_calls w p :
  calls (after_load template w p) =
  calls w ++ if bool_decide (is_Some (fs w !! p)) then [Exists p; ReadText p]
             else [Exists p; Copytree p; ReadText p].
Proof.
  unfold after_load. by destruct (fs w !! p).
Qed.

(** A valid row of an approved integration is merged without an exception
    when the document it meets is well-shaped. *)
Lemma process_row_returns row w p d i :
  DeviceRow row = true → model_dir row = inr p →
  row !! "integration" = Some (SStr d) → d ∈ APPROVED →
  loaded template w p = Some i → Document i = true →
  ∃ i' c, merge row i = inr (i', c) ∧ Document i' = true ∧
    process_row catalog template row w =
    (inr (outcome (bool_decide (is_Some (fs w !! p))) c),
     finish p i' c (after_load template w p)).
Proof.
  intros Hrow Hp Hd Happ Hl Hdoc.
  destruct (merge_total row i Hrow Hdoc) as (i' & c & Hm & Hdoc').
  exists i', c. split_and!; [done..|]. by eapply process_row_approved.
Qed.

Lemma DeviceRow_model_dir row :
  DeviceRow row = true →
  ∃ p d, model_dir row = inr p ∧ row !! "integration" = Some (SStr d).
Proof.
  intros Hrow.
  destruct (DeviceRow_str row "integration" Hrow) as [d Hd]; [set_solver|].
  destruct (DeviceRow_str row "manufacturer" Hrow) as [m Hm]; [set_solver|].
  destruct (DeviceRow_str row "model" Hrow) as [mo Hmo]; [set_solver|].
  eexists _, d. split; [|done]. apply model_dir_inr. by exists d, m, mo.
Qed.

(** C8. The converter of the capability flags returns true exactly on the
    literal ["True"]: for every string [s], [bool_ (Some s)] is [true] if
    and only if [s] is ["True"]; ["true"], ["TRUE"] and ["1"] give [false],
    and so does a cell that is missing; the three flag columns of the
    schema are validated by this converter. *)
Theorem bool_strict :
  (∀ s : string, bool_ (Some s) = true ↔ s = "True")
  ∧ bool_ (Some "true") = false ∧ bool_ (Some "TRUE") = false
  ∧ bool_ (Some "1") = false ∧ bool_ None = false
  ∧ ∀ key x, key ∈ ["has_via_device"; "has_suggested_area"; "has_configuration_url"] →
      validate_cell key x = Some (SBool (bool_ x)).
Proof.
  split_and!; try done.
  - intros s. simpl. apply String.eqb_eq.
  - intros key x Hin.
    repeat (apply elem_of_cons in Hin as [->|Hin]; [done|]).
    by apply elem_of_nil in Hin.
Qed.

(** C4. A valid row whose integration is not in the approved set, or is
    ["wled"] or ["fritz"] whatever the catalog holds, makes [process_row]
    return the record with [ignored = 1] and [created = updated = 0], and
    leaves the world as it was: the tree is the same and no call was made
    on it, neither [exists], [copytree], [read_text] nor [write_text]. *)
Theorem process_row_ignored row w d :
  DeviceRow row = true → row !! "integration" = Some (SStr d) →
  d ∉ APPROVED ∨ d = "wled" ∨ d = "fritz" →
  process_row catalog template row w = (inr (mkUpdateRecord 0 0 1), w).
Proof.
  intros Hrow Hd Hno.
  destruct (DeviceRow_model_dir row Hrow) as (p & d' & Hp & Hd').
  assert (d' = d) as -> by congruence.
  eapply process_row_not_approved; [done..|].
  rewrite approved_iff. destruct Hno as [Hno|[->| ->]]; [|tauto..].
  by rewrite <-approved_iff.
Qed.

(** C10. The record [process_row] returns for a valid row is one of
    (1,0,0), (0,1,0), (0,0,1) and (0,0,0), so every count is 0 or 1, at
    most one of them is 1, and a row is never both created and updated.
    It is (0,0,0) exactly when the integration is approved, the directory
    existed and the tree is the same afterwards. And [process_row] does
    return when the integration is not approved or the document it loads
    is well-shaped. *)
Theorem process_row_outcome row w :
  DeviceRow row = true →
  (∀ r w', process_row catalog template row w = (inr r, w') →
     (r = mkUpdateRecord 1 0 0 ∨ r = mkUpdateRecord 0 1 0
      ∨ r = mkUpdateRecord 0 0 1 ∨ r = mkUpdateRecord 0 0 0)
     ∧ (r = mkUpdateRecord 0 0 0 ↔
        ∃ p d, model_dir row = inr p ∧ row !! "integration" = Some (SStr d) ∧
          d ∈ APPROVED ∧ is_Some (fs w !! p) ∧ fs w' = fs w))
  ∧ ((∀ p d, model_dir row = inr p → row !! "integration" = Some (SStr d) →
        d ∈ APPROVED → ∃ i, loaded template w p = Some i ∧ Document i = true) →
     ∃ r w', process_row catalog template row w = (inr r, w')).
Proof.
  intros Hrow. split.
  - intros r w' H.
    apply process_row_inr in H as (p & d & Hp & Hd & [(Hno & -> & ->)|(Happ & i & i' & c & Hl & Hm & -> & ->)]).
    + split; [auto|]. split; [done|]. intros (p' & d' & _ & Hd' & Happ & _). congruence.
    + split; [unfold outcome; repeat case_match; auto|].
      pose proof (merge_changed _ _ _ _ Hm) as Hc.
      split.
      * intros Hz. unfold outcome in Hz.
        destruct (bool_decide (is_Some (fs w !! p))) eqn:Hex; [|done].
        destruct c; [done|]. apply bool_decide_eq_true in Hex as [dr Hex].
        exists p, d. split_and!; [done..|eauto|].
        unfold finish, after_load. by rewrite Hex.
      * intros (p' & d' & Hp' & _ & _ & [dr Hex] & Hfs).
        assert (p' = p) as -> by congruence.
        rewrite bool_decide_true by eauto. unfold outcome.
        destruct c; [exfalso|done].
        apply (f_equal (λ m : gmap path dir, m !! p)) in Hfs.
        unfold finish, after_load, loaded in *. rewrite Hex in *. simpl in Hfs.
        rewrite lookup_insert_eq in Hfs. destruct dr as [[?|]|]; simplify_eq.
        by apply Hc.
  - intros Hshape. destruct (DeviceRow_model_dir row Hrow) as (p & d & Hp & Hd).
    destruct (decide (d ∈ APPROVED)) as [Happ|Hno].
    + destruct (Hshape p d Hp Hd Happ) as (i & Hl & Hdoc).
      destruct (process_row_returns row w p d i) as (i' & c & _ & _ & ->); eauto.
    + erewrite process_row_not_approved; eauto.
Qed.

(** C1. When [process_row] has returned for a row of an approved
    integration, whatever the tree was before, a second [process_row] of
    the same row on the world the first one left merges the row into the
    document without an assignment or an append ([merge] gives the same
    document with [changed] false), returns the record (0,0,0), leaves the
    tree as it is, and makes no other calls than [exists] and
    [read_text]: nothing is written. *)
Theorem process_row_idempotent row w d r w1 :
  row !! "integration" = Some (SStr d) → d ∈ APPROVED →
  process_row catalog template row w = (inr r, w1) →
  ∃ p i, model_dir row = inr p ∧ fs w1 !! p = Some (Some (YMapping i)) ∧
    merge row i = inr (i, false) ∧
    process_row catalog template row w1 =
    (inr (mkUpdateRecord 0 0 0), World (fs w1) (calls w1 ++ [Exists p; ReadText p])).
Proof.
  intros Hd Happ H.
  apply process_row_inr in H as (p & d' & Hp & Hd' & [(Hno & _)|(_ & i0 & i & c & Hl & Hm & -> & ->)]);
    [congruence|].
  set (w1 := finish p i c (after_load template w p)).
  assert (fs w1 !! p = Some (Some (YMapping i))) as Hfs.
  { unfold w1. destruct c; simpl; [by rewrite lookup_insert_eq|].
    apply loaded_after_load in Hl. rewrite Hl. do 3 f_equal.
    destruct (decide (i = i0)) as [|Hne]; [done|].
    by apply (merge_changed _ _ _ _ Hm) in Hne. }
  assert (loaded template w1 p = Some i) as Hl1 by (unfold loaded; by rewrite Hfs).
  pose proof (merge_idem _ _ _ _ Hm) as Hm1.
  exists p, i. split_and!; [done..|].
  rewrite (process_row_approved row w1 p d i i false Hp Hd Happ Hl1 Hm1).
  rewrite bool_decide_true by (rewrite Hfs; eauto).
  unfold outcome, finish, after_load. by rewrite Hfs.
Qed.

(** ** Documents only grow *)

Lemma grows_refl i : grows i i.
Proof. split; [done|]. intros l Hl. exists []. by rewrite app_nil_r. Qed.

Lemma grows_trans i1 i2 i3 : grows i1 i2 → grows i2 i3 → grows i1 i3.
Proof.
  intros [Hk Hv] [Hk' Hv']. split.
  - eauto.
  - intros l Hl. destruct (Hv l Hl) as [l1 Hl1]. destruct (Hv' _ Hl1) as [l2 Hl2].
    exists (l1 ++ l2). by rewrite app_assoc.
Qed.

Lemma merge_grows row i i' c : merge row i = inr (i', c) → grows i i'.
Proof.
  intros Hm. split.
  - intros k v Hk Hv Ht. by eapply merge_keep.
  - intros l Hl. destruct (merge_versions _ _ _ _ Hm) as (sw & hw & l0 & _ & _ & Hl0 & Hl').
    assert (l0 = l) as -> by congruence. rewrite Hl'.
    case_bool_decide; [exists []; by rewrite app_nil_r|by eexists].
Qed.

Lemma tree_grows_refl w : tree_grows w w.
Proof. intros p i Hp. exists i. split; [done|apply grows_refl]. Qed.

Lemma tree_grows_trans w1 w2 w3 :
  tree_grows w1 w2 → tree_grows w2 w3 → tree_grows w1 w3.
Proof.
  intros H12 H23 p i Hp. destruct (H12 p i Hp) as (i2 & Hp2 & Hg2).
  destruct (H23 p i2 Hp2) as (i3 & Hp3 & Hg3). exists i3.
  split; [done|by eapply grows_trans].
Qed.

Lemma after_load_grows w p : tree_grows w (after_load template w p).
Proof.
  intros q i Hq. exists i. split; [|apply grows_refl]. unfold after_load.
  destruct (fs w !! p) eqn:Hp; simpl; [done|].
  rewrite lookup_insert_ne; [done|]. intros ->. congruence.
Qed.

(** Whatever the row and whether it returns or raises, [process_row] only
    makes the documents of the tree grow. *)
Lemma process_row_grows row w :
  tree_grows w (process_row catalog template row w).2.
Proof.
  destruct (process_row_world row w) as [->|(p & Hp & [->|(i & i' & Hl & Hm & ->)])].
  - apply tree_grows_refl.
  - apply after_load_grows.
  - intros q j Hq. unfold finish. simpl. destruct (decide (p = q)) as [->|Hne].
    + rewrite lookup_insert_eq. exists i'. split; [done|].
      unfold loaded in Hl. rewrite Hq in Hl. simplify_eq. by eapply merge_grows.
    + rewrite lookup_insert_ne by done. by apply after_load_grows.
Qed.

(** ** Loops over rows and files *)

Lemma for_each_M_cons {A S} (body : S → A → M S) (x : A) (l : list A) (s : S) :
  for_each_M body (x :: l) s = bind (body s x) (for_each_M body l).
Proof. done. Qed.

(** What every step of the loop does to the world, the loop does. *)
Lemma for_each_M_world {A S} (body : S → A → M S) (R : world → world → Prop) :
  (∀ w, R w w) → (∀ w1 w2 w3, R w1 w2 → R w2 w3 → R w1 w3) →
  (∀ s x w, R w (body s x w).2) →
  ∀ l s w, R w (for_each_M body l s w).2.
Proof.
  intros Hrefl Htrans Hbody l. induction l as [|x l IH]; intros s w; [apply Hrefl|].
  rewrite for_each_M_cons. unfold bind. specialize (Hbody s x w).
  destruct (body s x w) as [[e|s'] w1]; [done|]. eauto.
Qed.

Lemma process_file_grows rows w :
  tree_grows w (process_file catalog template rows w).2.
Proof.
  unfold process_file.
  apply (for_each_M_world _ tree_grows); [apply tree_grows_refl|apply tree_grows_trans|].
  clear. intros total raw w. unfold process_file_row, bind.
  destruct (DEVICE_SCHEMA raw) as [e|row]; [apply tree_grows_refl|]. cbn [lift ret].
  pose proof (process_row_grows row w) as H.
  by destruct (process_row catalog template row w) as [[e|r] w1].
Qed.

Lemma process_grows files w :
  tree_grows w (process catalog template files w).2.
Proof.
  unfold process.
  apply (for_each_M_world _ tree_grows); [apply tree_grows_refl|apply tree_grows_trans|].
  clear. intros [out total] [name rows] w. unfold process_path, try_except.
  pose proof (process_file_grows rows w) as H.
  by destruct (process_file catalog template rows w) as [[e|r] w1].
Qed.

Lemma finish_lookup row w p i i' c :
  loaded template w p = Some i → merge row i = inr (i', c) →
  fs (finish p i' c (after_load template w p)) !! p = Some (Some (YMapping i')).
Proof.
  intros Hl Hm. destruct c; simpl; [by rewrite lookup_insert_eq|].
  apply loaded_after_load in Hl. rewrite Hl. do 3 f_equal.
  destruct (decide (i = i')) as [|Hne]; [done|].
  assert (i' ≠ i) as Hne' by congruence.
  by apply (merge_changed _ _ _ _ Hm) in Hne'.
Qed.

Lemma field_holds_grows w w' p k v :
  tree_grows w w' → k ≠ "versions" → truthy_value v = true →
  field_holds w p k v → field_holds w' p k v.
Proof.
  intros Hg Hk Hv (i & Hp & Hi). destruct (Hg p i Hp) as (i' & Hp' & Hkeep & _).
  exists i'. eauto.
Qed.

Lemma versions_of_grows w w' p l :
  tree_grows w w' → versions_of w p = Some l →
  ∃ l', versions_of w' p = Some (l ++ l').
Proof.
  unfold versions_of. intros Hg Hl.
  destruct (fs w !! p) as [[[i|]|]|] eqn:Hp; try done.
  destruct (i !! "versions") as [[|l0]|] eqn:Hv; simplify_eq.
  destruct (Hg p i Hp) as (i' & -> & _ & Hv'). destruct (Hv' l Hv) as [l' ->]. eauto.
Qed.

Lemma info_key_not_versions k : k ∈ INFO_KEYS → k ≠ "versions".
Proof. intros Hin ->. by apply versions_no_field. Qed.

(** C5. First write wins. When [process_row] has merged a row of an
    approved integration, each of the eight fields of the document is
    either what it was in the document loaded, or it was falsy there, the
    row's value of its column (with [entry_type] defaulted) is truthy, and
    the field now holds that value; and a falsy field whose column is
    truthy is assigned. Consequently a field of a document on disk that
    holds a truthy value holds the same value after [process_row] of any
    row, after [process_file] of any rows and after [process] of any
    files, whether they return or raise. *)
Theorem first_write_wins :
  (∀ row w r w' p d,
     process_row catalog template row w = (inr r, w') →
     model_dir row = inr p → row !! "integration" = Some (SStr d) → d ∈ APPROVED →
     ∃ i i', loaded template w p = Some i ∧ fs w' !! p = Some (Some (YMapping i')) ∧
       ∀ rk k, (rk, k) ∈ FIELD_PAIRS →
         (i' !! k = i !! k
          ∨ ∃ old x, i !! k = Some old ∧ truthy_value old = false ∧
              with_entry_type row !! rk = Some x ∧ truthy x = true ∧
              i' !! k = Some (VScalar x))
         ∧ (∀ old x, i !! k = Some old → truthy_value old = false →
              with_entry_type row !! rk = Some x → truthy x = true →
              i' !! k = Some (VScalar x)))
  ∧ (∀ w p k v,
       k ∈ INFO_KEYS → truthy_value v = true → field_holds w p k v →
       (∀ row, field_holds (process_row catalog template row w).2 p k v)
       ∧ (∀ rows, field_holds (process_file catalog template rows w).2 p k v)
       ∧ (∀ files, field_holds (process catalog template files w).2 p k v)).
Proof.
  split.
  - intros row w r w' p d H Hp Hd Happ.
    apply process_row_inr in H
      as (p' & d' & Hp' & Hd' & [(Hno & _)|(_ & i & i' & c & Hl & Hm & -> & ->)]);
      [congruence|].
    assert (p' = p) as -> by congruence.
    exists i, i'. split_and!; [done|by eapply finish_lookup|].
    intros rk k Hin. split; [by eapply merge_assign|].
    intros old x. by eapply merge_fill.
  - intros w p k v Hk%info_key_not_versions Hv Hh. split_and!.
    + intros row. eapply field_holds_grows; eauto using process_row_grows.
    + intros rows. eapply field_holds_grows; eauto using process_file_grows.
    + intros files. eapply field_holds_grows; eauto using process_grows.
Qed.

Lemma version_of_lookup sw hw :
  version_of sw hw !! "software" = (if truthy sw then Some sw else None)
  ∧ version_of sw hw !! "hardware" = (if truthy hw then Some hw else None)
  ∧ ∀ k, k ≠ "software" → k ≠ "hardware" → version_of sw hw !! k = None.
Proof.
  unfold version_of. destruct (truthy sw), (truthy hw); split_and!; try done;
    intros; by simplify_map_eq.
Qed.

(** C6, as the code has it. The record built for a row holds the key
    ["software"] with the row's [sw_version] when that is truthy (a
    non-empty string) and the key ["hardware"] with the row's [hw_version]
    when that is truthy, and no other key; it is [{}] when neither is.
    When [process_row] has merged a row of an approved integration, the
    list of versions of the document is the list loaded if it held the
    record, and the list loaded with the record put at its end if not.
    Hence a second row of the same directory with the same two version
    cells adds nothing, and what [process_row], [process_file] and
    [process] leave of any list of versions starts with the list as it
    was: no entry is removed or moved. *)
Theorem versions_append :
  (∀ row sw hw,
     row !! "sw_version" = Some sw → row !! "hw_version" = Some hw →
     build_version row = inr (version_of sw hw)
     ∧ version_of sw hw !! "software" = (if truthy sw then Some sw else None)
     ∧ version_of sw hw !! "hardware" = (if truthy hw then Some hw else None)
     ∧ (∀ k, k ≠ "software" → k ≠ "hardware" → version_of sw hw !! k = None)
     ∧ (truthy sw = false → truthy hw = false → version_of sw hw = ∅))
  ∧ (∀ row w r w' p d,
       process_row catalog template row w = (inr r, w') →
       model_dir row = inr p → row !! "integration" = Some (SStr d) → d ∈ APPROVED →
       ∃ i sw hw l, loaded template w p = Some i ∧
         i !! "versions" = Some (VVersions l) ∧
         row !! "sw_version" = Some sw ∧ row !! "hw_version" = Some hw ∧
         versions_of w' p =
           Some (if bool_decide (version_of sw hw ∈ l) then l
                 else l ++ [version_of sw hw]))
  ∧ (∀ row1 row2 w r1 w1 r2 w2 p d1 d2,
       process_row catalog template row1 w = (inr r1, w1) →
       process_row catalog template row2 w1 = (inr r2, w2) →
       model_dir row1 = inr p → model_dir row2 = inr p →
       row1 !! "integration" = Some (SStr d1) → d1 ∈ APPROVED →
       row2 !! "integration" = Some (SStr d2) → d2 ∈ APPROVED →
       row2 !! "sw_version" = row1 !! "sw_version" →
       row2 !! "hw_version" = row1 !! "hw_version" →
       versions_of w2 p = versions_of w1 p)
  ∧ (∀ w p l,
       versions_of w p = Some l →
       (∀ row, ∃ l', versions_of (process_row catalog template row w).2 p = Some (l ++ l'))
       ∧ (∀ rows, ∃ l', versions_of (process_file catalog template rows w).2 p = Some (l ++ l'))
       ∧ (∀ files, ∃ l', versions_of (process catalog template files w).2 p = Some (l ++ l'))).
Proof.
  assert (∀ row w r w' p d,
       process_row catalog template row w = (inr r, w') →
       model_dir row = inr p → row !! "integration" = Some (SStr d) → d ∈ APPROVED →
       ∃ i sw hw l, loaded template w p = Some i ∧
         i !! "versions" = Some (VVersions l) ∧
         row !! "sw_version" = Some sw ∧ row !! "hw_version" = Some hw ∧
         versions_of w' p =
           Some (if bool_decide (version_of sw hw ∈ l) then l
                 else l ++ [version_of sw hw])) as Hstep.
  { intros row w r w' p d H Hp Hd Happ.
    apply process_row_inr in H
      as (p' & d' & Hp' & Hd' & [(Hno & _)|(_ & i & i' & c & Hl & Hm & -> & ->)]);
      [congruence|].
    assert (p' = p) as -> by congruence.
    destruct (merge_versions _ _ _ _ Hm) as (sw & hw & l & Hsw & Hhw & Hv & Hv').
    exists i, sw, hw, l. split_and!; [done..|].
    unfold versions_of. by rewrite (finish_lookup _ _ _ _ _ _ Hl Hm), Hv'. }
  split_and!.
  - intros row sw hw Hsw Hhw. destruct (version_of_lookup sw hw) as (? & ? & ?).
    split_and!; try done.
    + apply build_version_inr. by exists sw, hw.
    + intros Hs Hh. unfold version_of. by rewrite Hs, Hh.
  - exact Hstep.
  - intros row1 row2 w r1 w1 r2 w2 p d1 d2 H1 H2 Hp1 Hp2 Hd1 Ha1 Hd2 Ha2 Hsw Hhw.
    destruct (Hstep _ _ _ _ _ _ H1 Hp1 Hd1 Ha1) as (i1 & sw & hw & l1 & _ & _ & Hsw1 & Hhw1 & Hv1).
    destruct (Hstep _ _ _ _ _ _ H2 Hp2 Hd2 Ha2) as (i2 & sw' & hw' & l2 & Hl2 & Hi2 & Hsw2 & Hhw2 & Hv2).
    assert (sw' = sw) as -> by congruence. assert (hw' = hw) as -> by congruence.
    assert (versions_of w1 p = Some l2) as Hl.
    { unfold versions_of, loaded in *.
      destruct (fs w1 !! p) as [[[j|]|]|]; simplify_eq. by rewrite Hi2. }
    assert (version_of sw hw ∈ l2) as Hin.
    { assert (l2 = if bool_decide (version_of sw hw ∈ l1) then l1
                   else l1 ++ [version_of sw hw]) as -> by congruence.
      case_bool_decide; [done|]. apply elem_of_app. right. apply list_elem_of_here. }
    by rewrite Hv2, Hl, bool_decide_true.
  - intros w p l Hl. split_and!.
    + intros row. eapply versions_of_grows; eauto using process_row_grows.
    + intros rows. eapply versions_of_grows; eauto using process_file_grows.
    + intros files. eapply versions_of_grows; eauto using process_grows.
Qed.

Lemma existsb_is_write_app evs evs' :
  existsb is_write (evs ++ evs') = existsb is_write evs || existsb is_write evs'.
Proof. apply existsb_app. Qed.

(** The calls of a [process_row] that merges: [exists], [copytree] for a
    new directory, [read_text], and [write_text] after a change. *)
Lemma finish_new_calls w p i' c :
  new_calls w (finish p i' c (after_load template w p)) =
  (if bool_decide (is_Some (fs w !! p)) then [Exists p; ReadText p]
   else [Exists p; Copytree p; ReadText p])
  ++ (if c then [WriteText p i'] else []).
Proof.
  unfold new_calls, finish.
  destruct c; cbn [calls]; rewrite after_load_calls, <-?app_assoc, drop_app_length;
    [done|by rewrite app_nil_r].
Qed.

(** A valid row of an approved integration that meets a well-shaped
    document: [process_row] returns, the document of the directory is then
    the merged one, [write_text] is called if and only if the merged
    document differs from the one loaded, and [copytree] if and only if the
    directory did not exist. *)
Lemma process_row_save row w p d i :
  DeviceRow row = true → model_dir row = inr p →
  row !! "integration" = Some (SStr d) → d ∈ APPROVED →
  loaded template w p = Some i → Document i = true →
  ∃ r w' i' c,
    process_row catalog template row w = (inr r, w') ∧
    merge row i = inr (i', c) ∧
    fs w' !! p = Some (Some (YMapping i')) ∧
    (existsb is_write (new_calls w w') = true ↔ i' ≠ i) ∧
    (i' ≠ i → last (new_calls w w') = Some (WriteText p i')) ∧
    (existsb is_copytree (new_calls w w') = true ↔ fs w !! p = None) ∧
    (i !! "versions" = Some (VVersions []) → i' ≠ i).
Proof.
  intros Hrow Hp Hd Happ Hl Hdoc.
  destruct (process_row_returns row w p d i) as (i' & c & Hm & _ & Hrun); try done.
  pose proof (merge_changed _ _ _ _ Hm) as Hc.
  eexists _, _, i', c. split_and!; [exact Hrun|done|by eapply finish_lookup|..].
  - rewrite finish_new_calls, existsb_app.
    destruct c; case_bool_decide; simpl; split; try done; try (by intros _; apply Hc);
      intros Hne; by apply Hc in Hne.
  - intros Hne. apply Hc in Hne as ->. rewrite finish_new_calls.
    by case_bool_decide.
  - rewrite finish_new_calls, existsb_app.
    destruct c; case_bool_decide as Hex; simpl; split; try done;
      try (intros Hn; destruct Hex as [? Hx]; congruence);
      try (intros _; by apply eq_None_not_Some).
  - intros Hv. apply Hc.
    destruct (merge_versions _ _ _ _ Hm) as (sw & hw & l & _ & _ & Hl0 & Hl').
    assert (l = []) as -> by congruence.
    rewrite bool_decide_false in Hl' by apply not_elem_of_nil.
    destruct c; [done|]. assert (i' = i) as ->.
    { destruct (decide (i' = i)) as [|Hne]; [done|]. by apply Hc in Hne. }
    simpl in Hl'. congruence.
Qed.

(** The world an approved row leaves: the document was loaded, or the
    attempt made, and it was written back if it had changed. *)
Lemma process_row_world_approved row w p d :
  model_dir row = inr p → row !! "integration" = Some (SStr d) → d ∈ APPROVED →
  ∃ i' c, (process_row catalog template row w).2
          = finish p i' c (after_load template w p).
Proof.
  intros Hp Hd Happ. rewrite process_row_eq, Hp, Hd. cbn [default from_option id].
  rewrite (proj2 (in_set_approved d) Happ). cbv zeta.
  destruct (fs (after_load template w p) !! p) as [[[i|]|]|]; try (by exists ∅, false).
  destruct (merge row i) as [e|[i' c]]; [by exists ∅, false|by exists i', c].
Qed.

Lemma new_calls_after_load w p :
  new_calls w (after_load template w p) =
  if bool_decide (is_Some (fs w !! p)) then [Exists p; ReadText p]
  else [Exists p; Copytree p; ReadText p].
Proof.
  change (after_load template w p) with (finish p ∅ false (after_load template w p)).
  by rewrite finish_new_calls, app_nil_r.
Qed.

(** C2, as the code has it. For every valid row of an approved
    integration, [process_row] calls [write_text] if and only if the merge
    has set [changed], that is, an assignment or an append took place and
    the merged document differs from the one loaded; whether the directory
    was freshly scaffolded plays no part. [copytree] is called if and only
    if the directory did not exist, and a freshly scaffolded document that
    the merge leaves as it is reaches the disk through [copytree] alone.
    When the document loaded is well-shaped, [process_row] returns and the
    document of the directory is then the merged one; a document whose
    list of versions is empty is always changed, hence written. *)
Theorem save_iff_changed row w d :
  DeviceRow row = true → row !! "integration" = Some (SStr d) → d ∈ APPROVED →
  saves catalog template row w = changes template row w
  ∧ (scaffolds catalog template row w = true ↔
     ∃ p, model_dir row = inr p ∧ fs w !! p = None)
  ∧ (∀ p i, model_dir row = inr p → loaded template w p = Some i →
       Document i = true →
       ∃ r w' i' c,
         process_row catalog template row w = (inr r, w') ∧
         merge row i = inr (i', c) ∧
         changes template row w = c ∧
         (c = true ↔ i' ≠ i) ∧
         fs w' !! p = Some (Some (YMapping i')) ∧
         (i' ≠ i → last (new_calls w w') = Some (WriteText p i')) ∧
         (i !! "versions" = Some (VVersions []) → i' ≠ i)).
Proof.
  intros Hrow Hd Happ.
  destruct (DeviceRow_model_dir row Hrow) as (p & d' & Hp & Hd').
  assert (∀ q, model_dir row = inr q → q = p) as Hq by (intros q Hq'; congruence).
  split_and!.
  - unfold saves, changes. rewrite process_row_eq, Hp, Hd. cbn [default from_option id].
    rewrite (proj2 (in_set_approved d) Happ). cbv zeta.
    destruct (loaded template w p) as [i|] eqn:Hl.
    + rewrite (proj1 (loaded_after_load w p i) Hl).
      destruct (merge row i) as [e|[i' c]]; simpl.
      * rewrite new_calls_after_load. by case_bool_decide.
      * rewrite finish_new_calls, existsb_app. by destruct c; case_bool_decide.
    + assert (existsb is_write (new_calls w (after_load template w p)) = false) as Hno
        by (rewrite new_calls_after_load; by case_bool_decide).
      destruct (fs (after_load template w p) !! p) as [[[i|]|]|] eqn:Hfs; try done.
      apply loaded_after_load in Hfs. congruence.
  - unfold scaffolds.
    assert (existsb is_copytree (new_calls w (after_load template w p)) = true
            ↔ fs w !! p = None) as Hload.
    { rewrite new_calls_after_load. case_bool_decide as Hex; simpl.
      - split; [done|]. destruct Hex as [? Hex]. congruence.
      - split; [intros _|done]. by apply eq_None_not_Some. }
    assert (∀ i' c, existsb is_copytree
                      (new_calls w (finish p i' c (after_load template w p))) = true
                    ↔ fs w !! p = None) as Hfin.
    { intros i' c. rewrite <-Hload, finish_new_calls, new_calls_after_load, existsb_app.
      destruct c; simpl; by rewrite ?orb_false_r. }
    destruct (process_row_world_approved row w p d Hp Hd Happ) as (i' & c & ->).
    rewrite Hfin.
    split; [intros Hn; by exists p|intros (q & ->%Hq & Hn); done].
  - intros q i ->%Hq Hl Hdoc.
    destruct (process_row_save row w p d i) as (r & w' & i' & c & Hrun & Hm & Hfs & Hw & Hlast & _ & Hv);
      try done.
    exists r, w', i', c. split_and!; try done.
    + unfold changes. by rewrite Hp, Hl, Hm.
    + by eapply merge_changed.
Qed.

(** ** Files and batches *)

Lemma UpdateRecord_add_assoc a b c :
  UpdateRecord_add (UpdateRecord_add a b) c = UpdateRecord_add a (UpdateRecord_add b c).
Proof. unfold UpdateRecord_add. simpl. f_equal; lia. Qed.

Lemma UpdateRecord_add_default_r a : UpdateRecord_add a UpdateRecord_default = a.
Proof. destruct a. unfold UpdateRecord_add. simpl. f_equal; lia. Qed.

Lemma UpdateRecord_add_default_l a : UpdateRecord_add UpdateRecord_default a = a.
Proof. by destruct a as [[] [] []]. Qed.

Lemma for_each_M_app {A S} (body : S → A → M S) (l1 l2 : list A) (s : S) (w : world) :
  for_each_M body (l1 ++ l2) s w = bind (for_each_M body l1 s) (for_each_M body l2) w.
Proof.
  revert s w. induction l1 as [|x l1 IH]; intros s w; [done|].
  rewrite <-app_comm_cons, !for_each_M_cons. unfold bind in *.
  destruct (body s x w) as [[e|s'] w1]; [done|]. apply IH.
Qed.

Lemma process_file_row_eq total raw w :
  process_file_row catalog template total raw w =
  match DEVICE_SCHEMA raw with
  | inl e => (inl e, w)
  | inr row =>
      match process_row catalog template row w with
      | (inr r, w1) => (inr (UpdateRecord_add total r), w1)
      | (inl e, w1) => (inl e, w1)
      end
  end.
Proof.
  unfold process_file_row, bind. destruct (DEVICE_SCHEMA raw) as [e|row]; [done|].
  cbn [lift ret]. by destruct (process_row catalog template row w) as [[e|r] w1].
Qed.


(** The loop stops at an invalid row, with the world as it found it. *)
Lemma process_file_row_invalid raw rows e total w :
  DEVICE_SCHEMA raw = inl e →
  for_each_M (process_file_row catalog template) (raw :: rows) total w = (inl e, w).
Proof.
  intros He. rewrite for_each_M_cons. unfold bind. by rewrite process_file_row_eq, He.
Qed.


(** The script's sum of records is their sum count by count. *)
Lemma UpdateRecord_sum_pointwise rs : UpdateRecord_sum rs = pointwise_sum rs.
Proof.
  induction rs as [|r rs IH]; [done|]. cbn [UpdateRecord_sum foldr].
  fold (UpdateRecord_sum rs). rewrite IH. unfold UpdateRecord_add, pointwise_sum.
  by rewrite !fmap_cons.
Qed.


Lemma validate_cell_None key x :
  validate_cell key x = None ↔
  key ∉ SCHEMA_KEYS ∨ (key ∈ ["integration"; "manufacturer"; "model"] ∧ x = None).
Proof.
  destruct (decide (key ∈ SCHEMA_KEYS)) as [Hin|Hout].
  - unfold SCHEMA_KEYS in Hin.
    repeat (apply elem_of_cons in Hin as [->|Hin];
      [destruct x; split;
       [by vm_compute
       |intros [Hno|[Hin Hx]];
          [destruct Hno; decide_by_computation
          |first [done
                 |exfalso; revert Hin; decide_by_computation]]
       |first [by vm_compute
              |intros _; right; split; [decide_by_computation|done]]
       |intros [Hno|[Hin Hx]];
          [destruct Hno; decide_by_computation
          |first [by vm_compute
                 |exfalso; revert Hin; decide_by_computation]]]|]).
    by apply elem_of_nil in Hin.
  - split; [by left|intros _]. unfold validate_cell, DEVICE_SCHEMA_dict.
    by rewrite (not_elem_of_list_to_map_1 _ key).
Qed.

Lemma offending_cell raw key x :
  cells raw !! key = Some x → validate_cell key x = None → Some key ∈ offending raw.
Proof.
  intros Hk Hv. unfold offending. apply elem_of_union. left.
  apply elem_of_map. exists key. split; [done|]. apply elem_of_dom.
  exists x. by apply map_lookup_filter_Some.
Qed.

(** What a row that passed validation looks like: every cell was
    converted, and nothing else is in the row. *)
Lemma DEVICE_SCHEMA_inr raw row :
  DEVICE_SCHEMA raw = inr row →
  rest raw = None
  ∧ (∀ k x, cells raw !! k = Some x →
       ∃ v, validate_cell k x = Some v ∧ row !! k = Some v)
  ∧ (∀ k, cells raw !! k = None → row !! k = None).
Proof.
  unfold DEVICE_SCHEMA. case_decide as Hoff; [|done]. intros [= <-]. split_and!.
  - destruct (rest raw) as [l|] eqn:Hl; [exfalso|done].
    assert (None ∈ offending raw) as Hin.
    { unfold offending. rewrite Hl. apply elem_of_union. right. by apply elem_of_singleton. }
    rewrite Hoff in Hin. by apply not_elem_of_empty in Hin.
  - intros k x Hk. destruct (validate_cell k x) as [v|] eqn:Hv.
    + exists v. split; [done|]. by rewrite map_lookup_imap, Hk.
    + pose proof (offending_cell raw k x Hk Hv) as Hin. rewrite Hoff in Hin.
      by apply not_elem_of_empty in Hin.
  - intros k Hk. by rewrite map_lookup_imap, Hk.
Qed.

(** A row read under a header with the nine columns is, once validated, a
    valid row. *)
Lemma DEVICE_SCHEMA_DeviceRow raw row :
  DEVICE_SCHEMA raw = inr row →
  (∀ k, k ∈ SCHEMA_KEYS → is_Some (cells raw !! k)) →
  DeviceRow row = true.
Proof.
  intros (_ & Hcells & _)%DEVICE_SCHEMA_inr Hkeys.
  assert (∀ k ty, k ∈ SCHEMA_KEYS →
            (∀ x v, validate_cell k x = Some v → ty v = true) →
            has_type ty row k = true) as Hty.
  { intros k ty Hk Hconv. destruct (Hkeys k Hk) as [x Hx].
    destruct (Hcells k x Hx) as (v & Hv & Hr). unfold has_type. rewrite Hr. eauto. }
  unfold DeviceRow. rewrite !andb_true_iff. split_and!; apply Hty;
    try (decide_by_computation);
    intros [x|] v Hv; vm_compute in Hv; simplify_eq; try done;
    simpl; by repeat case_match.
Qed.

(** C3, as the code has it. Validation raises [Invalid] whenever a cell
    of the row does not pass: its column is none of the nine, or it is
    [None] in one of the columns [integration], [manufacturer] and
    [model], the only conversions that can fail; or the row has surplus
    cells. The exception names the column. Such a row is rejected before
    anything is done for it: [process_file] stops with that exception in
    the world the rows before it left, without a call on the tree. (A
    missing column is not looked for by the schema.) *)
Theorem invalid_row_rejected raw :
  (∃ key x, cells raw !! key = Some x ∧ validate_cell key x = None)
  ∨ is_Some (rest raw) →
  DEVICE_SCHEMA raw = inl (Invalid (offending raw))
  ∧ (∀ key x, cells raw !! key = Some x → validate_cell key x = None →
       Some key ∈ offending raw)
  ∧ (∀ key x, validate_cell key x = None ↔
       key ∉ SCHEMA_KEYS
       ∨ (key ∈ ["integration"; "manufacturer"; "model"] ∧ x = None))
  ∧ (∀ w, process_file catalog template [raw] w = (inl (Invalid (offending raw)), w))
  ∧ (∀ pre post w,
       process_file catalog template (pre ++ raw :: post) w =
       match process_file catalog template pre w with
       | (inr _, w1) => (inl (Invalid (offending raw)), w1)
       | (inl e, w1) => (inl e, w1)
       end).
Proof.
  intros Hbad.
  assert (DEVICE_SCHEMA raw = inl (Invalid (offending raw))) as Hinv.
  { unfold DEVICE_SCHEMA. case_decide as Hoff; [exfalso|done].
    destruct Hbad as [(key & x & Hk & Hv)|[l Hl]].
    - pose proof (offending_cell raw key x Hk Hv) as Hin. rewrite Hoff in Hin.
      by apply not_elem_of_empty in Hin.
    - assert (None ∈ offending raw) as Hin.
      { unfold offending. rewrite Hl. apply elem_of_union. right. by apply elem_of_singleton. }
      rewrite Hoff in Hin. by apply not_elem_of_empty in Hin. }
  split_and!; [done|apply offending_cell|apply validate_cell_None|..].
  - intros w. unfold process_file. by apply process_file_row_invalid.
  - intros pre post w. unfold process_file. rewrite for_each_M_app. unfold bind.
    destruct (for_each_M _ pre _ w) as [[e|t] w1]; [done|].
    by apply process_file_row_invalid.
Qed.

Lemma process_path_eq out total name rows w :
  process_path catalog template (out, total) (name, rows) w =
  match process_file catalog template rows w with
  | (inr r, w1) => (inr (out ++ [(name, Done)], UpdateRecord_add total r), w1)
  | (inl e, w1) => (inr (out ++ [(name, Error e)], total), w1)
  end.
Proof.
  unfold process_path, try_except.
  by destruct (process_file catalog template rows w) as [[e|r] w1].
Qed.

(** The loop of [process] from any lines and total. *)
Lemma process_loop files out total w :
  for_each_M (process_path catalog template) files (out, total) w =
  (inr (out ++ (prod_map id status_of <$> (files_results catalog template files w).1),
        UpdateRecord_add total
          (UpdateRecord_sum (completed (files_results catalog template files w).1))),
   (files_results catalog template files w).2).
Proof.
  revert out total w. induction files as [|[name rows] files IH]; intros out total w.
  - simpl. by rewrite app_nil_r, UpdateRecord_add_default_r.
  - rewrite for_each_M_cons. unfold bind. rewrite process_path_eq. simpl.
    destruct (process_file catalog template rows w) as [[e|r] w1];
      rewrite IH; destruct (files_results catalog template files w1) as [rs w2]; simpl.
    + by rewrite <-app_assoc.
    + by rewrite <-app_assoc, UpdateRecord_add_assoc.
Qed.

Lemma files_results_names files w :
  (files_results catalog template files w).1.*1 = files.*1.
Proof.
  revert w. induction files as [|[name rows] files IH]; intros w; [done|]. simpl.
  destruct (process_file catalog template rows w) as [r w1]. specialize (IH w1).
  destruct (files_results catalog template files w1) as [rs w2]. simpl in *. by f_equal.
Qed.

Lemma process_eq files w :
  process catalog template files w =
  (inr (prod_map id status_of <$> (files_results catalog template files w).1,
        UpdateRecord_sum (completed (files_results catalog template files w).1)),
   (files_results catalog template files w).2).
Proof.
  unfold process. rewrite process_loop. simpl. by rewrite UpdateRecord_add_default_l.
Qed.

(** C9. [process] never raises. It runs [process_file] once on every
    file, in order, each in the world the files before it left, whether
    they failed or not; it reports [Done] or [Error] for each file; and the
    total it reports has for [created], [updated] and [ignored] the sums
    over the integers of those counts of exactly the files whose
    [process_file] returned. A file that raised adds nothing to the total,
    whatever its rows merged before, while the world it left is the one the
    next file starts from; a file that returned adds its three counts to
    those of the files after it. *)
Theorem process_batch files w :
  process catalog template files w =
  (inr (prod_map id status_of <$> (files_results catalog template files w).1,
        pointwise_sum (completed (files_results catalog template files w).1)),
   (files_results catalog template files w).2)
  ∧ (∀ total,
       total = pointwise_sum (completed (files_results catalog template files w).1) →
       created total
       = foldr Z.add 0 (created <$> completed (files_results catalog template files w).1)
       ∧ updated total
         = foldr Z.add 0 (updated <$> completed (files_results catalog template files w).1)
       ∧ ignored total
         = foldr Z.add 0 (ignored <$> completed (files_results catalog template files w).1))
  ∧ (files_results catalog template files w).1.*1 = files.*1
  ∧ (∀ name rows files' e w1,
       files = (name, rows) :: files' →
       process_file catalog template rows w = (inl e, w1) →
       ∃ out total w2,
         process catalog template files' w1 = (inr (out, total), w2) ∧
         process catalog template files w = (inr ((name, Error e) :: out, total), w2))
  ∧ (∀ name rows files' r w1,
       files = (name, rows) :: files' →
       process_file catalog template rows w = (inr r, w1) →
       ∃ out total w2,
         process catalog template files' w1 = (inr (out, total), w2) ∧
         process catalog template files w =
         (inr ((name, Done) :: out,
               mkUpdateRecord (created r + created total) (updated r + updated total)
                              (ignored r + ignored total)), w2)).
Proof.
  split_and!.
  - rewrite process_eq. by rewrite UpdateRecord_sum_pointwise.
  - by intros total ->.
  - apply files_results_names.
  - intros name rows files' e w1 -> Hfile. rewrite !process_eq. simpl. rewrite Hfile.
    destruct (files_results catalog template files' w1) as [rs w2]. by eexists _, _, _.
  - intros name rows files' r w1 -> Hfile. rewrite !process_eq. simpl. rewrite Hfile.
    destruct (files_results catalog template files' w1) as [rs w2]. by eexists _, _, _.
Qed.

End Properties.

(** ** The properties on the sample inputs *)

Example DEVICE_SCHEMA_sample : DEVICE_SCHEMA Sample.raw = inr Sample.row.
Proof. decide_by_computation. Qed.

Example DeviceRow_sample : DeviceRow Sample.row = true.
Proof. decide_by_computation. Qed.

Example Document_blank : Document Sample.blank = true.
Proof. decide_by_computation. Qed.

(** The scenario of the specification: the first report of a device
    creates its document. *)
Example process_row_sample :
  process_row Sample.catalog Sample.template Sample.row Sample.empty_world =
  (inr (mkUpdateRecord 1 0 0),
   let doc : Info :=
     list_to_map
       [ ("manufacturer_raw", VScalar (SStr "Signify"));
         ("model_raw", VScalar (SStr "LCT001"));
         ("manufacturer_name", VScalar (SStr "Signify"));
         ("model_name", VScalar (SStr "LCT001"));
         ("has_via_device", VScalar (SBool true));
         ("has_suggested_area", VScalar SNone);
         ("has_configuration_url", VScalar SNone);
         ("entry_type", VScalar (SStr "device"));
         ("versions", VVersions [ {[ "hardware" := SStr "1" ]} ]) ] in
   World {[ Sample.dir_of_row := Some (YMapping doc) ]}
         [ Exists Sample.dir_of_row; Copytree Sample.dir_of_row;
           ReadText Sample.dir_of_row; WriteText Sample.dir_of_row doc ]).
Proof. decide_by_computation. Qed.

(** [hue] is in the sample catalog and not excluded. *)
Lemma hue_approved : "hue" ∈ APPROVED_INTEGRATIONS Sample.catalog.
Proof. decide_by_computation. Defined.

(** The sample line for [wled], which the catalog lists: ignored, and the
    world is untouched. *)
Lemma process_row_ignored_witness :
  process_row Sample.catalog Sample.template Sample.wled_row Sample.empty_world
  = (inr (mkUpdateRecord 0 0 1), Sample.empty_world).
Proof.
  apply (process_row_ignored Sample.catalog Sample.template Sample.wled_row
           Sample.empty_world "wled").
  - decide_by_computation.
  - decide_by_computation.
  - right. left. reflexivity.
Defined.

(** The outcome of the sample row in the empty world. *)
Lemma process_row_outcome_witness :
  (∀ r w',
     process_row Sample.catalog Sample.template Sample.row Sample.empty_world = (inr r, w') →
     (r = mkUpdateRecord 1 0 0 ∨ r = mkUpdateRecord 0 1 0
      ∨ r = mkUpdateRecord 0 0 1 ∨ r = mkUpdateRecord 0 0 0)
     ∧ (r = mkUpdateRecord 0 0 0 ↔
        ∃ p d, model_dir Sample.row = inr p ∧
          Sample.row !! "integration" = Some (SStr d) ∧
          d ∈ APPROVED_INTEGRATIONS Sample.catalog ∧
          is_Some (fs Sample.empty_world !! p) ∧ fs w' = fs Sample.empty_world))
  ∧ ((∀ p d, model_dir Sample.row = inr p →
        Sample.row !! "integration" = Some (SStr d) →
        d ∈ APPROVED_INTEGRATIONS Sample.catalog →
        ∃ i, loaded Sample.template Sample.empty_world p = Some i ∧ Document i = true) →
     ∃ r w',
       process_row Sample.catalog Sample.template Sample.row Sample.empty_world = (inr r, w')).
Proof.
  apply (process_row_outcome Sample.catalog Sample.template Sample.row Sample.empty_world).
  decide_by_computation.
Defined.

(** The sample row merged a second time. *)
Lemma process_row_idempotent_witness :
  ∃ p i, model_dir Sample.row = inr p ∧
    fs Sample.world_after_row !! p = Some (Some (YMapping i)) ∧
    merge Sample.row i = inr (i, false) ∧
    process_row Sample.catalog Sample.template Sample.row Sample.world_after_row =
    (inr (mkUpdateRecord 0 0 0),
     World (fs Sample.world_after_row)
           (calls Sample.world_after_row ++ [Exists p; ReadText p])).
Proof.
  apply (process_row_idempotent Sample.catalog Sample.template Sample.row
           Sample.empty_world "hue" (mkUpdateRecord 1 0 0) Sample.world_after_row).
  - decide_by_computation.
  - exact hue_approved.
  - decide_by_computation.
Defined.

(** The sample row in the empty world: the directory is made from the
    blank template and the merged document is written. *)
Lemma save_iff_changed_witness :
  saves Sample.catalog Sample.template Sample.row Sample.empty_world
  = changes Sample.template Sample.row Sample.empty_world
  ∧ (scaffolds Sample.catalog Sample.template Sample.row Sample.empty_world = true ↔
     ∃ p, model_dir Sample.row = inr p ∧ fs Sample.empty_world !! p = None)
  ∧ (∀ p i, model_dir Sample.row = inr p →
       loaded Sample.template Sample.empty_world p = Some i → Document i = true →
       ∃ r w' i' c,
         process_row Sample.catalog Sample.template Sample.row Sample.empty_world
         = (inr r, w') ∧
         merge Sample.row i = inr (i', c) ∧
         changes Sample.template Sample.row Sample.empty_world = c ∧
         (c = true ↔ i' ≠ i) ∧
         fs w' !! p = Some (Some (YMapping i')) ∧
         (i' ≠ i → last (new_calls Sample.empty_world w') = Some (WriteText p i')) ∧
         (i !! "versions" = Some (VVersions []) → i' ≠ i)).
Proof.
  apply (save_iff_changed Sample.catalog Sample.template Sample.row Sample.empty_world
           "hue").
  - decide_by_computation.
  - decide_by_computation.
  - exact hue_approved.
Defined.

Example saves_sample :
  saves Sample.catalog Sample.template Sample.row Sample.empty_world = true
  ∧ scaffolds Sample.catalog Sample.template Sample.row Sample.empty_world = true.
Proof. split; decide_by_computation. Qed.

(** C2 as the specification states it fails: with a template that comes
    filled in, a row that adds nothing to it makes [process_row] copy the
    template and return the record (1,0,0) without calling [write_text],
    although the document was freshly scaffolded. *)
Lemma save_when_scaffolded_counterexample :
  process_row Sample.catalog Sample.filled_template Sample.row_no_version Sample.empty_world
  = (inr (mkUpdateRecord 1 0 0),
     World {[ Sample.dir_of_row := Sample.filled_template ]}
           [ Exists Sample.dir_of_row; Copytree Sample.dir_of_row;
             ReadText Sample.dir_of_row ])
  ∧ DeviceRow Sample.row_no_version = true
  ∧ ¬ (saves Sample.catalog Sample.filled_template Sample.row_no_version Sample.empty_world
       = true
       ↔ scaffolds Sample.catalog Sample.filled_template Sample.row_no_version
           Sample.empty_world = true
         ∨ changes Sample.filled_template Sample.row_no_version Sample.empty_world = true).
Proof.
  split_and!; decide_by_computation.
Qed.

(** The line that is too short is rejected for its [model]. *)
Lemma invalid_row_rejected_witness :
  DEVICE_SCHEMA Sample.short_raw = inl (Invalid (offending Sample.short_raw))
  ∧ (∀ key x, cells Sample.short_raw !! key = Some x → validate_cell key x = None →
       Some key ∈ offending Sample.short_raw)
  ∧ (∀ key x, validate_cell key x = None ↔
       key ∉ SCHEMA_KEYS
       ∨ (key ∈ ["integration"; "manufacturer"; "model"] ∧ x = None))
  ∧ (∀ w, process_file Sample.catalog Sample.template [Sample.short_raw] w
          = (inl (Invalid (offending Sample.short_raw)), w))
  ∧ (∀ pre post w,
       process_file Sample.catalog Sample.template (pre ++ Sample.short_raw :: post) w =
       match process_file Sample.catalog Sample.template pre w with
       | (inr _, w1) => (inl (Invalid (offending Sample.short_raw)), w1)
       | (inl e, w1) => (inl e, w1)
       end).
Proof.
  apply (invalid_row_rejected Sample.catalog Sample.template Sample.short_raw).
  left. exists "model", None. split; decide_by_computation.
Defined.

Example offending_short : offending Sample.short_raw = {[ Some "model" ]}.
Proof. decide_by_computation. Qed.

(** C3 as the specification states it fails: a row without the column
    [entry_type] passes [DEVICE_SCHEMA], whose keys are optional; no
    [Invalid] is raised. The row then reaches [process_row], which copies
    the template before it misses the key. *)
Lemma missing_key_counterexample :
  "entry_type" ∈ SCHEMA_KEYS
  ∧ cells Sample.raw_without_entry_type !! "entry_type" = None
  ∧ DEVICE_SCHEMA Sample.raw_without_entry_type = inr (delete "entry_type" Sample.row)
  ∧ process_file Sample.catalog Sample.template [Sample.raw_without_entry_type]
      Sample.empty_world
    = (inl (KeyError "entry_type"),
       World {[ Sample.dir_of_row := Sample.template ]}
             [ Exists Sample.dir_of_row; Copytree Sample.dir_of_row;
               ReadText Sample.dir_of_row ])
  ∧ ¬ ((∃ key, key ∈ SCHEMA_KEYS ∧ cells Sample.raw_without_entry_type !! key = None) →
       ∃ e, DEVICE_SCHEMA Sample.raw_without_entry_type = inl e).
Proof.
  assert ("entry_type" ∈ SCHEMA_KEYS) as Hin by decide_by_computation.
  assert (cells Sample.raw_without_entry_type !! "entry_type" = None) as Hno
    by decide_by_computation.
  assert (DEVICE_SCHEMA Sample.raw_without_entry_type = inr (delete "entry_type" Sample.row))
    as Hok by decide_by_computation.
  split_and!; [done..|decide_by_computation|].
  intros H. destruct H as [e He].
  - exists "entry_type". split; [exact Hin|exact Hno].
  - rewrite Hok in He. discriminate He.
Qed.

(** The document whose display name is ["Acme"] keeps it when a row of
    the manufacturer ["Other"] is merged into it. *)
Lemma first_write_wins_witness :
  field_holds
    (process_row Sample.catalog Sample.template Sample.other_row Sample.acme_world).2
    Sample.acme_dir "manufacturer_name" (VScalar (SStr "Acme")).
Proof.
  refine (proj1 (proj2 (first_write_wins Sample.catalog Sample.template)
                   Sample.acme_world Sample.acme_dir "manufacturer_name"
                   (VScalar (SStr "Acme")) _ _ _) Sample.other_row).
  - decide_by_computation.
  - reflexivity.
  - exists Sample.acme. split; decide_by_computation.
Defined.

(** The row was merged into that document: its other fields were filled. *)
Example acme_merged :
  model_dir Sample.other_row = inr Sample.acme_dir
  ∧ (process_row Sample.catalog Sample.template Sample.other_row Sample.acme_world).1
    = inr (mkUpdateRecord 0 1 0)
  ∧ field_holds
      (process_row Sample.catalog Sample.template Sample.other_row Sample.acme_world).2
      Sample.acme_dir "manufacturer_raw" (VScalar (SStr "Other")).
Proof.
  split_and!; [decide_by_computation..|].
  exists (<["entry_type" := VScalar (SStr "device")]>
            (<["versions" := VVersions [ {[ "hardware" := SStr "1" ]} ]]>
               (<["has_via_device" := VScalar (SBool true)]>
                  (<["model_name" := VScalar (SStr "X1")]>
                     (<["model_raw" := VScalar (SStr "X1")]>
                        (<["manufacturer_raw" := VScalar (SStr "Other")]> Sample.acme)))))).
  split; decide_by_computation.
Qed.

(** The sample row merged twice: the second merge adds no version. *)
Lemma versions_append_witness :
  versions_of
    (process_row Sample.catalog Sample.template Sample.row Sample.world_after_row).2
    Sample.dir_of_row
  = versions_of Sample.world_after_row Sample.dir_of_row.
Proof.
  refine (proj1 (proj2 (proj2 (versions_append Sample.catalog Sample.template)))
            Sample.row Sample.row Sample.empty_world
            (mkUpdateRecord 1 0 0) Sample.world_after_row
            (mkUpdateRecord 0 0 0)
            (process_row Sample.catalog Sample.template Sample.row Sample.world_after_row).2
            Sample.dir_of_row "hue" "hue" _ _ _ _ _ hue_approved _ hue_approved _ _);
    decide_by_computation.
Defined.

Example versions_sample :
  versions_of Sample.world_after_row Sample.dir_of_row
  = Some [ {[ "hardware" := SStr "1" ]} ].
Proof. decide_by_computation. Qed.

(** C6 as the specification states it fails: the software cell of the row
    is present, the empty string, and the record built for it has no key
    ["software"]; it is [{}]. *)
Lemma version_present_counterexample :
  DeviceRow Sample.row_empty_sw = true
  ∧ Sample.row_empty_sw !! "sw_version" = Some (SStr "")
  ∧ Sample.row_empty_sw !! "hw_version" = Some SNone
  ∧ build_version Sample.row_empty_sw = inr ∅
  ∧ version_when_present (SStr "") SNone = {[ "software" := SStr "" ]}
  ∧ build_version Sample.row_empty_sw ≠ inr (version_when_present (SStr "") SNone).
Proof.
  split_and!; decide_by_computation.
Qed.


(** A file of valid rows: the device is created by the first row and left
    as it is by the second. *)
Example process_file_sample :
  (process_file Sample.catalog Sample.template [Sample.raw; Sample.raw]
     Sample.empty_world).1
  = inr (mkUpdateRecord 1 0 0).
Proof. decide_by_computation. Qed.

(** A batch: the first file creates the device and then fails, the second
    finds the device as the first left it. The total counts nothing of the
    first file. *)
Example process_sample :
  (process Sample.catalog Sample.template
     [ ("a.csv", [Sample.raw; Sample.short_raw]); ("b.csv", [Sample.raw]) ]
     Sample.empty_world).1
  = inr ([ ("a.csv", Error (Invalid {[ Some "model" ]})); ("b.csv", Done) ],
         mkUpdateRecord 0 0 0).
Proof. decide_by_computation. Qed.

(** * Further properties of the script *)

(** ** [UpdateRecord] *)

Lemma UpdateRecord_add_comm a b : UpdateRecord_add a b = UpdateRecord_add b a.
Proof. unfold UpdateRecord_add. f_equal; lia. Qed.

Lemma UpdateRecord_sum_app rs1 rs2 :
  UpdateRecord_sum (rs1 ++ rs2)
  = UpdateRecord_add (UpdateRecord_sum rs1) (UpdateRecord_sum rs2).
Proof.
  induction rs1 as [|r rs1 IH]; simpl.
  - by rewrite UpdateRecord_add_default_l.
  - unfold UpdateRecord_sum in *. simpl. by rewrite IH, UpdateRecord_add_assoc.
Qed.

(** X1. [UpdateRecord.__add__] is associative and commutative with
    [UpdateRecord()] as its unit, so a total does not depend on the order
    or the grouping in which records are added: the sum of a list of
    records is the same for every permutation of the list, and the sum of
    two lists put together is the sum of their sums. *)
Theorem UpdateRecord_add_monoid :
  (∀ a b c, UpdateRecord_add (UpdateRecord_add a b) c
            = UpdateRecord_add a (UpdateRecord_add b c))
  ∧ (∀ a b, UpdateRecord_add a b = UpdateRecord_add b a)
  ∧ (∀ a, UpdateRecord_add UpdateRecord_default a = a
          ∧ UpdateRecord_add a UpdateRecord_default = a)
  ∧ (∀ rs1 rs2, UpdateRecord_sum (rs1 ++ rs2)
                = UpdateRecord_add (UpdateRecord_sum rs1) (UpdateRecord_sum rs2))
  ∧ (∀ rs rs', rs ≡ₚ rs' → UpdateRecord_sum rs = UpdateRecord_sum rs').
Proof.
  split_and!.
  - apply UpdateRecord_add_assoc.
  - apply UpdateRecord_add_comm.
  - intros a. split; [apply UpdateRecord_add_default_l|apply UpdateRecord_add_default_r].
  - apply UpdateRecord_sum_app.
  - intros rs rs' Hp. induction Hp as [|r rs rs' _ IH|r1 r2 rs|rs1 rs2 rs3 _ IH1 _ IH2].
    + done.
    + unfold UpdateRecord_sum in *. simpl. by rewrite IH.
    + unfold UpdateRecord_sum. simpl.
      by rewrite <-!UpdateRecord_add_assoc, (UpdateRecord_add_comm r1 r2).
    + congruence.
Qed.

(** ** Validation *)

Lemma offending_Some raw key :
  Some key ∈ offending raw ↔
  ∃ x, cells raw !! key = Some x ∧ validate_cell key x = None.
Proof.
  unfold offending. rewrite elem_of_union, elem_of_map. split.
  - intros [(k & [= <-] & Hk)|Hin].
    + apply elem_of_dom in Hk as [x Hx]. apply map_lookup_filter_Some in Hx as [Hx Hv].
      by exists x.
    + destruct (rest raw); [by apply elem_of_singleton in Hin|by apply elem_of_empty in Hin].
  - intros (x & Hx & Hv). left. exists key. split; [done|]. apply elem_of_dom.
    exists x. by apply map_lookup_filter_Some.
Qed.

Lemma offending_None raw : None ∈ offending raw ↔ is_Some (rest raw).
Proof.
  unfold offending. rewrite elem_of_union, elem_of_map. split.
  - intros [(k & [=] & _)|Hin]. destruct (rest raw); [by eexists|by apply elem_of_empty in Hin].
  - intros [l Hl]. right. rewrite Hl. by apply elem_of_singleton.
Qed.

(** X2. What [DEVICE_SCHEMA] accepts and what its exception holds. A row
    passes exactly when it has no surplus cells, every column of it is one
    of the nine, and none of its [integration], [manufacturer] and [model]
    cells is [None]; no column has to be there, so the empty row passes
    too. When the row does not pass, the exception names exactly the
    columns whose cell did not pass, and the reader's [restkey] exactly
    when there are surplus cells, and it names at least one of them. *)
Theorem DEVICE_SCHEMA_accepts raw :
  ((∃ row, DEVICE_SCHEMA raw = inr row) ↔
   rest raw = None
   ∧ ∀ k x, cells raw !! k = Some x →
       k ∈ SCHEMA_KEYS
       ∧ (k ∈ ["integration"; "manufacturer"; "model"] → x ≠ None))
  ∧ (∀ e, DEVICE_SCHEMA raw = inl e →
       e = Invalid (offending raw) ∧ offending raw ≠ ∅
       ∧ (∀ k, Some k ∈ offending raw ↔
            ∃ x, cells raw !! k = Some x
                 ∧ (k ∉ SCHEMA_KEYS
                    ∨ (k ∈ ["integration"; "manufacturer"; "model"] ∧ x = None)))
       ∧ (None ∈ offending raw ↔ is_Some (rest raw)))
  ∧ DEVICE_SCHEMA (RawRow ∅ None) = inr ∅.
Proof.
  split_and!.
  - split.
    + intros [row (Hrest & Hcells & _)%DEVICE_SCHEMA_inr]. split; [done|].
      intros k x Hk. destruct (Hcells k x Hk) as (v & Hv & _).
      assert (validate_cell k x ≠ None) as Hne by congruence.
      rewrite validate_cell_None in Hne. split.
      * destruct (decide (k ∈ SCHEMA_KEYS)); [done|]. destruct Hne. by left.
      * intros Hin ->. destruct Hne. by right.
    + intros [Hrest Hcells]. unfold DEVICE_SCHEMA.
      case_decide as Hoff; [by eexists|]. destruct Hoff.
      apply set_eq. intros [k|]; split; try (by intros []%elem_of_empty).
      * intros (x & Hx & Hv)%offending_Some. destruct (Hcells k x Hx) as [Hin Hstr].
        apply validate_cell_None in Hv as [Hno|[Hin' ->]]; [done|]. by destruct Hstr.
      * intros [l Hl]%offending_None. congruence.
  - intros e He. unfold DEVICE_SCHEMA in He. case_decide as Hoff; [done|].
    simplify_eq. split_and!; [done..| |apply offending_None].
    intros k. rewrite offending_Some.
    split; intros (x & Hx & Hv); exists x; (split; [done|]); by apply validate_cell_None.
  - decide_by_computation.
Qed.

(** X3. What a row looks like once it has passed [DEVICE_SCHEMA]. It has
    the columns of the line and no others. The cells of [integration],
    [manufacturer] and [model] are kept as they are. A cell of
    [sw_version], [hw_version] or [entry_type] becomes [None] when it is
    the text ["None"] (or missing from the line) and is kept otherwise, the
    empty string included, so the row never holds the string ["None"]
    there. A flag is [True] exactly when its cell is the text ["True"].
    A line read under a header with all nine columns gives a valid
    row. *)
Theorem DEVICE_SCHEMA_row raw row :
  DEVICE_SCHEMA raw = inr row →
  dom row = dom (cells raw)
  ∧ (∀ k, k ∈ ["integration"; "manufacturer"; "model"] →
       ∀ v, row !! k = Some v → cells raw !! k = Some (Some match v with SStr s => s | _ => "" end)
                                 ∧ is_str v = true)
  ∧ (∀ k, k ∈ ["sw_version"; "hw_version"; "entry_type"] →
       ∀ v, row !! k = Some v →
         v ≠ SStr "None"
         ∧ (v = SNone ↔ cells raw !! k = Some None ∨ cells raw !! k = Some (Some "None"))
         ∧ (∀ s, v = SStr s ↔ cells raw !! k = Some (Some s) ∧ s ≠ "None"))
  ∧ (∀ k, k ∈ ["has_via_device"; "has_suggested_area"; "has_configuration_url"] →
       ∀ v, row !! k = Some v →
         ∃ b, v = SBool b ∧ (b = true ↔ cells raw !! k = Some (Some "True")))
  ∧ ((∀ k, k ∈ SCHEMA_KEYS → is_Some (cells raw !! k)) → DeviceRow row = true).
Proof.
  intros Hok. pose proof Hok as (Hrest & Hcells & Hnone)%DEVICE_SCHEMA_inr.
  assert (∀ k v, row !! k = Some v →
            ∃ x, cells raw !! k = Some x ∧ validate_cell k x = Some v) as Hrow.
  { intros k v Hv. destruct (cells raw !! k) as [x|] eqn:Hx.
    - destruct (Hcells k x Hx) as (v' & Hv' & Hr). exists x. split; [done|]. congruence.
    - rewrite (Hnone k Hx) in Hv. done. }
  split_and!.
  - apply set_eq. intros k. rewrite !elem_of_dom. split.
    + intros [v Hv]. destruct (Hrow k v Hv) as (x & -> & _). by eexists.
    + intros [x Hx]. destruct (Hcells k x Hx) as (v & _ & ->). by eexists.
  - intros k Hk v Hv. destruct (Hrow k v Hv) as (x & Hx & Hc). rewrite Hx.
    repeat (apply elem_of_cons in Hk as [->|Hk];
            [destruct x as [s|]; vm_compute in Hc; by simplify_eq|]).
    by apply elem_of_nil in Hk.
  - intros k Hk v Hv. destruct (Hrow k v Hv) as (x & Hx & Hc). rewrite Hx.
    assert (v = str_or_none x) as ->.
    { repeat (apply elem_of_cons in Hk as [->|Hk];
              [unfold validate_cell in Hc; vm_compute (DEVICE_SCHEMA_dict !! _) in Hc;
               simpl in Hc; by simplify_eq|]).
      by apply elem_of_nil in Hk. }
    clear. destruct x as [s|]; simpl.
    + destruct (String.eqb_spec s "None") as [->|Hne].
      * split_and!; [done|naive_solver|]. intros s. split; [done|]. by intros [[= ->] ?].
      * split_and!; [congruence|naive_solver|]. intros s'. naive_solver.
    + split_and!; [done|naive_solver|]. intros s. naive_solver.
  - intros k Hk v Hv. destruct (Hrow k v Hv) as (x & Hx & Hc). rewrite Hx.
    assert (v = SBool (bool_ x)) as ->.
    { repeat (apply elem_of_cons in Hk as [->|Hk];
              [unfold validate_cell in Hc; vm_compute (DEVICE_SCHEMA_dict !! _) in Hc;
               simpl in Hc; by simplify_eq|]).
      by apply elem_of_nil in Hk. }
    exists (bool_ x). split; [done|]. destruct x as [s|]; simpl; [|naive_solver].
    rewrite String.eqb_eq. naive_solver.
  - by apply DEVICE_SCHEMA_DeviceRow.
Qed.

(** ** One row *)

Section Row.

Context (catalog : gset string) (template : dir).




(** X5. [model_dir] is built before the integration is looked up in the
    approved set. A row that lacks [integration], [manufacturer] or
    [model] therefore makes [process_row] raise [KeyError] for the first of
    them that is missing, with the world untouched, also when its
    integration is one that would be ignored. *)
Theorem process_row_missing_column row w :
  (row !! "integration" = None →
   process_row catalog template row w = (inl (KeyError "integration"), w))
  ∧ (∀ d, row !! "integration" = Some (SStr d) → row !! "manufacturer" = None →
       process_row catalog template row w = (inl (KeyError "manufacturer"), w))
  ∧ (∀ d m, row !! "integration" = Some (SStr d) →
       row !! "manufacturer" = Some (SStr m) → row !! "model" = None →
       process_row catalog template row w = (inl (KeyError "model"), w)).
Proof.
  split_and!.
  - intros Hd. rewrite process_row_eq. unfold model_dir, getitem. by rewrite Hd.
  - intros d Hd Hm. rewrite process_row_eq. unfold model_dir, getitem.
    rewrite Hd. simpl. by rewrite Hm.
  - intros d m Hd Hm Hmo. rewrite process_row_eq. unfold model_dir, getitem.
    rewrite Hd. simpl. rewrite Hm. simpl. by rewrite Hmo.
Qed.

Lemma model_dir_insert_entry_type row x :
  model_dir (<["entry_type" := x]> row) = model_dir row.
Proof. unfold model_dir, getitem. by rewrite !lookup_insert_ne. Qed.

Lemma merge_entry_type_default row i e :
  row !! "entry_type" = Some e → truthy e = false →
  merge (<["entry_type" := SStr "device"]> row) i = merge row i.
Proof.
  intros He Ht. unfold merge, getitem. rewrite lookup_insert_eq, He. cbn [rbind].
  assert (with_entry_type (<["entry_type" := SStr "device"]> row)
          = with_entry_type row) as ->; [|done].
  unfold with_entry_type. by rewrite lookup_insert_eq, He, Ht.
Qed.

(** X6. The default of [entry_type]. A row whose [entry_type] is falsy,
    [None] or the empty string, is processed exactly as the same row with
    [entry_type] set to ["device"]: the same result and the same world,
    whatever the tree holds. *)
Theorem entry_type_default row w e :
  row !! "entry_type" = Some e → truthy e = false →
  process_row catalog template row w
  = process_row catalog template (<["entry_type" := SStr "device"]> row) w.
Proof.
  intros He Ht. rewrite !process_row_eq, model_dir_insert_entry_type.
  destruct (model_dir row) as [e0|p]; [done|].
  rewrite lookup_insert_ne by done. destruct (in_set _ _); [|done]. cbv zeta.
  destruct (fs (after_load template w p) !! p) as [[[i|]|]|]; try done.
  - by rewrite (merge_entry_type_default row i e).
  - unfold getitem. by rewrite lookup_insert_eq, He.
Qed.

(** X7. What the counts of a row stand for. When [process_row] returns:
    [ignored] is 1 exactly when no call at all was made on the tree;
    [created] is 1 exactly when [copytree] was called, which is when the
    integration is approved and the directory did not exist, whether or
    not the merge then changed anything; [updated] is 1 exactly when
    [write_text] was called without [copytree], that is, an existing
    document was changed. *)
Theorem outcome_effects row w r w' :
  process_row catalog template row w = (inr r, w') →
  (ignored r = 1 ↔ new_calls w w' = [])
  ∧ (ignored r = 1 → w' = w)
  ∧ (created r = 1 ↔ existsb is_copytree (new_calls w w') = true)
  ∧ (created r = 1 ↔
     ∃ p d, model_dir row = inr p ∧ row !! "integration" = Some (SStr d)
            ∧ d ∈ APPROVED_INTEGRATIONS catalog ∧ fs w !! p = None)
  ∧ (updated r = 1 ↔
     existsb is_copytree (new_calls w w') = false
     ∧ existsb is_write (new_calls w w') = true).
Proof.
  intros H.
  apply process_row_inr in H
    as (p & d & Hp & Hd & [(Hno & -> & ->)|(Happ & i & i' & c & Hl & Hm & -> & ->)]).
  - unfold new_calls. rewrite drop_all. simpl. split_and!; try done.
    + split; [done|]. intros (p' & d' & _ & Hd' & Happ & _). congruence.
    + split; [done|by intros [? ?]].
  - rewrite finish_new_calls, !existsb_app.
    assert (fs w !! p = None ↔ ¬ is_Some (fs w !! p)) as Hnone
      by (rewrite eq_None_not_Some; done).
    split_and!.
    + unfold outcome. destruct c; case_bool_decide; simpl; by split.
    + unfold outcome. by destruct c; case_bool_decide.
    + unfold outcome. destruct c; case_bool_decide; simpl; by split.
    + split.
      * intros Hc. exists p, d. split_and!; try done. apply Hnone. intros Hex.
        unfold outcome in Hc. rewrite bool_decide_true in Hc by done. by destruct c.
      * intros (p' & d' & Hp' & _ & _ & Hfs). assert (p' = p) as -> by congruence.
        unfold outcome. rewrite bool_decide_false; [done|]. by apply Hnone.
    + unfold outcome. destruct c; case_bool_decide; simpl; split; try done;
        by intros [? ?].
Qed.









End Row.

Section File.

Context (catalog : gset string) (template : dir).

Lemma process_file_shift rows a b w :
  for_each_M (process_file_row catalog template) rows (UpdateRecord_add a b) w =
  match for_each_M (process_file_row catalog template) rows b w with
  | (inr t, w1) => (inr (UpdateRecord_add a t), w1)
  | (inl e, w1) => (inl e, w1)
  end.
Proof.
  revert b w. induction rows as [|raw rows IH]; intros b w; [done|].
  rewrite !for_each_M_cons. unfold bind. rewrite !process_file_row_eq.
  destruct (DEVICE_SCHEMA raw) as [e|row]; [done|].
  destruct (process_row catalog template row w) as [[e|r] w1]; [done|].
  rewrite UpdateRecord_add_assoc. apply IH.
Qed.

(** The loop of [process_file] from any total. *)
Lemma process_file_loop rows total w :
  for_each_M (process_file_row catalog template) rows total w =
  match process_file catalog template rows w with
  | (inr t, w1) => (inr (UpdateRecord_add total t), w1)
  | (inl e, w1) => (inl e, w1)
  end.
Proof.
  unfold process_file.
  rewrite <-(UpdateRecord_add_default_r total) at 1. apply process_file_shift.
Qed.

Lemma files_results_app files1 files2 w :
  files_results catalog template (files1 ++ files2) w =
  ((files_results catalog template files1 w).1
   ++ (files_results catalog template files2
         (files_results catalog template files1 w).2).1,
   (files_results catalog template files2
      (files_results catalog template files1 w).2).2).
Proof.
  revert w. induction files1 as [|[name rows] files1 IH]; intros w.
  - simpl. by destruct (files_results catalog template files2 w).
  - simpl. destruct (process_file catalog template rows w) as [r w1].
    rewrite IH. destruct (files_results catalog template files1 w1) as [rs1 w2].
    simpl. by destruct (files_results catalog template files2 w2).
Qed.

Lemma completed_app rs1 rs2 : completed (rs1 ++ rs2) = completed rs1 ++ completed rs2.
Proof. apply omap_app. Qed.

(** X10. A file or a batch can be cut in two. Processing the rows
    [rows1 ++ rows2] is processing [rows1] and then, when that returned,
    [rows2] in the tree it left, the two totals added; an exception of
    either part is the exception of the whole, with the tree as that part
    left it. Processing the files [files1 ++ files2] prints the lines of
    the first run followed by those of the second, started in the tree the
    first left, and the total is the sum of the two totals. *)
Theorem process_app :
  (∀ rows1 rows2 w,
     process_file catalog template (rows1 ++ rows2) w =
     match process_file catalog template rows1 w with
     | (inr t1, w1) =>
         match process_file catalog template rows2 w1 with
         | (inr t2, w2) => (inr (UpdateRecord_add t1 t2), w2)
         | (inl e, w2) => (inl e, w2)
         end
     | (inl e, w1) => (inl e, w1)
     end)
  ∧ (∀ files1 files2 w,
       ∃ out1 t1 w1 out2 t2 w2,
         process catalog template files1 w = (inr (out1, t1), w1)
         ∧ process catalog template files2 w1 = (inr (out2, t2), w2)
         ∧ process catalog template (files1 ++ files2) w
           = (inr (out1 ++ out2, UpdateRecord_add t1 t2), w2)).
Proof.
  split.
  - intros rows1 rows2 w. unfold process_file at 1. rewrite for_each_M_app.
    unfold bind. fold (process_file catalog template rows1).
    destruct (process_file catalog template rows1 w) as [[e|t1] w1]; [done|].
    apply process_file_loop.
  - intros files1 files2 w.
    pose proof (process_eq catalog template files1 w) as H1.
    pose proof (process_eq catalog template files2
                  (files_results catalog template files1 w).2) as H2.
    pose proof (process_eq catalog template (files1 ++ files2) w) as H3.
    rewrite files_results_app in H3. cbn [fst snd] in H3.
    rewrite fmap_app, completed_app, UpdateRecord_sum_app in H3.
    eexists _, _, _, _, _, _. split_and!; [exact H1|exact H2|exact H3].
Qed.

Lemma process_file_cons raw rows w :
  process_file catalog template (raw :: rows) w =
  match DEVICE_SCHEMA raw with
  | inl e => (inl e, w)
  | inr row =>
      match process_row catalog template row w with
      | (inr r, w1) =>
          match process_file catalog template rows w1 with
          | (inr t, w2) => (inr (UpdateRecord_add r t), w2)
          | (inl e, w2) => (inl e, w2)
          end
      | (inl e, w1) => (inl e, w1)
      end
  end.
Proof.
  unfold process_file at 1. rewrite for_each_M_cons. unfold bind.
  rewrite process_file_row_eq. destruct (DEVICE_SCHEMA raw) as [e|row]; [done|].
  destruct (process_row catalog template row w) as [[e|r] w1]; [done|].
  rewrite UpdateRecord_add_default_l. apply process_file_loop.
Qed.

Lemma count_calls_app kind evs evs' :
  count_calls kind (evs ++ evs') = count_calls kind evs + count_calls kind evs'.
Proof. unfold count_calls. rewrite List.filter_app, length_app. lia. Qed.

Lemma new_calls_refl w : new_calls w w = [].
Proof. unfold new_calls. by rewrite drop_all. Qed.

Lemma new_calls_trans w w1 w2 :
  calls w1 = calls w ++ new_calls w w1 → calls w2 = calls w1 ++ new_calls w1 w2 →
  calls w2 = calls w ++ new_calls w w2
  ∧ new_calls w w2 = new_calls w w1 ++ new_calls w1 w2.
Proof.
  intros H1 H2. assert (new_calls w w2 = new_calls w w1 ++ new_calls w1 w2) as ->.
  { unfold new_calls at 1. rewrite H2, H1 at 1. by rewrite <-app_assoc, drop_app_length. }
  split; [|done]. rewrite H2, H1 at 1. by rewrite <-app_assoc.
Qed.

Lemma finish_calls w p i' c :
  calls (finish p i' c (after_load template w p))
  = calls w ++ new_calls w (finish p i' c (after_load template w p)).
Proof.
  rewrite finish_new_calls. unfold finish.
  destruct c; cbn [calls]; rewrite after_load_calls, <-?app_assoc; [done|].
  by rewrite app_nil_r.
Qed.

Lemma finish_dom w p i' c :
  dom (fs (finish p i' c (after_load template w p))) = {[p]} ∪ dom (fs w).
Proof.
  assert (dom (fs (after_load template w p)) = {[p]} ∪ dom (fs w)) as Hload.
  { unfold after_load. destruct (fs w !! p) eqn:Hp; cbn [fs].
    - assert (p ∈ dom (fs w)) by (apply elem_of_dom; by eexists). set_solver.
    - by rewrite dom_insert_L. }
  unfold finish. destruct c; cbn [fs]; [|done].
  rewrite dom_insert_L, Hload. set_solver.
Qed.

(** The counts of one row against its calls and the tree. *)
Lemma process_row_counts row w r w' :
  process_row catalog template row w = (inr r, w') →
  calls w' = calls w ++ new_calls w w'
  ∧ (0 ≤ created r ∧ 0 ≤ updated r ∧ 0 ≤ ignored r
     ∧ created r + updated r + ignored r ≤ 1)%Z
  ∧ ignored r = (if match row !! "integration" with
                     | Some x => negb (in_set x (APPROVED_INTEGRATIONS catalog))
                     | None => false
                     end then 1 else 0)
  ∧ created r = count_calls is_copytree (new_calls w w')
  ∧ (updated r ≤ count_calls is_write (new_calls w w') ≤ created r + updated r)%Z
  ∧ Z.of_nat (size (dom (fs w'))) = Z.of_nat (size (dom (fs w))) + created r.
Proof.
  intros H.
  apply process_row_inr in H
    as (p & d & Hp & Hd & [(Hno & -> & ->)|(Happ & i & i' & c & Hl & Hm & -> & ->)]);
    rewrite Hd; cbn [in_set].
  - rewrite new_calls_refl, app_nil_r, bool_decide_false by done.
    cbn. split_and!; (done || lia).
  - rewrite (bool_decide_true (d ∈ _)) by done. cbn [negb].
    split; [apply finish_calls|].
    rewrite finish_new_calls, finish_dom, !count_calls_app. unfold outcome.
    destruct (fs w !! p) as [dr|] eqn:Hfs.
    + rewrite bool_decide_true by eauto.
      assert ({[p]} ∪ dom (fs w) = dom (fs w)) as ->.
      { assert (p ∈ dom (fs w)) by (apply elem_of_dom; by eexists). set_solver. }
      destruct c; cbn; split_and!; (done || lia).
    + rewrite bool_decide_false by (by intros [? ?]).
      rewrite size_union, size_singleton
        by (apply disjoint_singleton_l, not_elem_of_dom; done).
      destruct c; cbn; split_and!; (done || lia).
Qed.

Lemma is_ignored_inr raw row :
  DEVICE_SCHEMA raw = inr row →
  is_ignored catalog raw
  = match row !! "integration" with
    | Some x => negb (in_set x (APPROVED_INTEGRATIONS catalog))
    | None => false
    end.
Proof. intros H. unfold is_ignored. by rewrite H. Qed.

(** X11. What the total of a file counts. When [process_file] returns,
    the calls made so far are kept and the counts of the total are not
    negative and add up to at most the number of rows; [ignored] is the
    number of rows whose integration is not approved; [created] is the
    number of calls of [copytree] and the number of directories the tree
    has gained; and the calls of [write_text] are at least [updated] and at
    most [created + updated], since a row that makes a directory counts as
    created whether or not its document was then written. *)
Theorem process_file_counts rows w t w' :
  process_file catalog template rows w = (inr t, w') →
  calls w' = calls w ++ new_calls w w'
  ∧ (0 ≤ created t ∧ 0 ≤ updated t ∧ 0 ≤ ignored t
     ∧ created t + updated t + ignored t ≤ Z.of_nat (length rows))%Z
  ∧ ignored t = Z.of_nat (length (List.filter (is_ignored catalog) rows))
  ∧ created t = count_calls is_copytree (new_calls w w')
  ∧ (updated t ≤ count_calls is_write (new_calls w w') ≤ created t + updated t)%Z
  ∧ Z.of_nat (size (dom (fs w'))) = Z.of_nat (size (dom (fs w))) + created t.
Proof.
  revert w t. induction rows as [|raw rows IH]; intros w t H.
  - cbv [process_file for_each_M ret] in H. simplify_eq.
    rewrite new_calls_refl, app_nil_r. cbn. split_and!; (done || lia).
  - rewrite process_file_cons in H.
    destruct (DEVICE_SCHEMA raw) as [e|row] eqn:Hraw; [done|].
    destruct (process_row catalog template row w) as [[e|r] w1] eqn:Hrow; [done|].
    destruct (process_file catalog template rows w1) as [[e|t'] w2] eqn:Hrows; [done|].
    simplify_eq.
    apply process_row_counts in Hrow as (Hc1 & Hr & Hi & Hcr & Hup & Hsz).
    apply IH in Hrows as (Hc2 & Ht & Hi' & Hcr' & Hup' & Hsz').
    destruct (new_calls_trans _ _ _ Hc1 Hc2) as [Hc Hn].
    split; [done|]. rewrite Hn, !count_calls_app. cbn [List.filter length].
    rewrite (is_ignored_inr _ _ Hraw).
    destruct (match row !! "integration" with
              | Some x => negb (in_set x (APPROVED_INTEGRATIONS catalog))
              | None => false
              end); cbn [length];
      unfold UpdateRecord_add; cbn [created updated ignored]; split_and!; (done || lia).
Qed.

(** ** Running again *)

Lemma extends_refl i : extends i i.
Proof. split; [done|apply grows_refl]. Qed.

Lemma extends_trans i1 i2 i3 : extends i1 i2 → extends i2 i3 → extends i1 i3.
Proof.
  intros [Hd Hg] [Hd' Hg']. split; [congruence|by eapply grows_trans].
Qed.

Lemma merge_extends row i i' c : merge row i = inr (i', c) → extends i i'.
Proof. intros Hm. split; [by eapply merge_dom|by eapply merge_grows]. Qed.

Lemma tree_extends_refl w : tree_extends w w.
Proof. intros p i Hp. exists i. split; [done|apply extends_refl]. Qed.

Lemma tree_extends_trans w1 w2 w3 :
  tree_extends w1 w2 → tree_extends w2 w3 → tree_extends w1 w3.
Proof.
  intros H12 H23 p i Hp. destruct (H12 p i Hp) as (i2 & Hp2 & Hg2).
  destruct (H23 p i2 Hp2) as (i3 & Hp3 & Hg3). exists i3.
  split; [done|by eapply extends_trans].
Qed.

Lemma tree_extends_fs w w' : fs w' = fs w → tree_extends w w'.
Proof. intros Hfs p i Hp. exists i. rewrite Hfs. split; [done|apply extends_refl]. Qed.

Lemma after_load_extends w p : tree_extends w (after_load template w p).
Proof.
  intros q i Hq. exists i. split; [|apply extends_refl]. unfold after_load.
  destruct (fs w !! p) eqn:Hp; simpl; [done|].
  rewrite lookup_insert_ne; [done|]. intros ->. congruence.
Qed.

Lemma process_row_extends row w :
  tree_extends w (process_row catalog template row w).2.
Proof.
  destruct (process_row_world catalog template row w)
    as [->|(p & Hp & [->|(i & i' & Hl & Hm & ->)])].
  - apply tree_extends_refl.
  - apply after_load_extends.
  - intros q j Hq. unfold finish. simpl. destruct (decide (p = q)) as [->|Hne].
    + rewrite lookup_insert_eq. exists i'. split; [done|].
      unfold loaded in Hl. rewrite Hq in Hl. simplify_eq. by eapply merge_extends.
    + rewrite lookup_insert_ne by done. by apply after_load_extends.
Qed.

Lemma process_file_extends rows w :
  tree_extends w (process_file catalog template rows w).2.
Proof.
  unfold process_file.
  apply (for_each_M_world _ tree_extends);
    [apply tree_extends_refl|apply tree_extends_trans|].
  clear. intros total raw w. unfold process_file_row, bind.
  destruct (DEVICE_SCHEMA raw) as [e|row]; [apply tree_extends_refl|]. cbn [lift ret].
  pose proof (process_row_extends row w) as H.
  by destruct (process_row catalog template row w) as [[e|r] w1].
Qed.

Lemma process_extends files w :
  tree_extends w (process catalog template files w).2.
Proof.
  unfold process.
  apply (for_each_M_world _ tree_extends);
    [apply tree_extends_refl|apply tree_extends_trans|].
  clear. intros [out total] [name rows] w. unfold process_path, try_except.
  pose proof (process_file_extends rows w) as H.
  by destruct (process_file catalog template rows w) as [[e|r] w1].
Qed.

(** The merge loop leaves a document as it is exactly when every field
    is there and is truthy or has a falsy column. *)
Lemma merge_fields_noop row pairs i c :
  for_each (merge_field row) pairs (i, c) = inr (i, c) ↔
  ∀ rk k, (rk, k) ∈ pairs →
    ∃ old, i !! k = Some old ∧
      (truthy_value old = true ∨ ∃ x, row !! rk = Some x ∧ truthy x = false).
Proof.
  split.
  - revert c. induction pairs as [|[rk0 k0] pairs IH]; intros c H rk k Hin.
    { by apply elem_of_nil in Hin. }
    rewrite for_each_cons in H. apply rbind_inr in H as ([i1 c1] & H1 & H2).
    apply merge_field_inr in H1
      as [(-> & -> & Hold)|(old & x & Hold & Hfalsy & Hx & Htruthy & -> & ->)].
    + apply elem_of_cons in Hin as [[= -> ->]|Hin]; [done|by eapply IH].
    + pose proof (merge_fields_keep _ _ _ _ _ _ k0 (VScalar x) H2) as Hkeep.
      rewrite lookup_insert_eq in Hkeep. specialize (Hkeep eq_refl Htruthy).
      rewrite Hold in Hkeep. simplify_eq. simpl in Hfalsy. congruence.
  - revert c. induction pairs as [|[rk0 k0] pairs IH]; intros c H; [done|].
    rewrite for_each_cons. destruct (H rk0 k0) as (old & Hold & Hcase); [left|].
    assert (merge_field row (i, c) (rk0, k0) = inr (i, c)) as ->.
    { unfold merge_field, getitem. rewrite Hold. cbn [rbind].
      destruct (truthy_value old); [done|].
      destruct Hcase as [|(x & Hx & Ht)]; [done|].
      rewrite Hx. cbn [rbind]. by rewrite Ht. }
    cbn [rbind]. apply IH. intros rk k Hin. apply H. by right.
Qed.

(** A document that the merge of a row leaves as it is stays so when it
    grows with its keys kept. *)
Lemma merge_settled_extends row i i' :
  merge row i = inr (i, false) → extends i i' → merge row i' = inr (i', false).
Proof.
  intros (i1 & c1 & sw & hw & l & He & Hloop & Hsw & Hhw & Hl & H)%merge_inr [Hdom Hg].
  case_bool_decide as Hin; destruct H as [H1 H2]; [|done]. subst i1 c1.
  destruct Hg as [Hkeep Hvers]. destruct (Hvers l Hl) as [l' Hl'].
  apply merge_inr. exists i', false, sw, hw, (l ++ l'). split_and!; try done.
  - apply merge_fields_noop. intros rk k Hk.
    destruct (proj1 (merge_fields_noop _ _ _ _) Hloop rk k Hk) as (old & Hold & Hcase).
    destruct (truthy_value old) eqn:Ht.
    + exists old. split; [|by left]. apply Hkeep; [|done..].
      by eapply field_not_versions.
    + assert (is_Some (i' !! k)) as [old' Hold'].
      { apply elem_of_dom. rewrite Hdom. apply elem_of_dom. by eexists. }
      exists old'. split; [done|]. right. by destruct Hcase.
  - rewrite bool_decide_true; [done|]. apply elem_of_app. by left.
Qed.

Lemma settled_extends row w w' :
  settled catalog row w → tree_extends w w' → settled catalog row w'.
Proof.
  intros (p & d & Hp & Hd & [Hno|(i & Hi & Hm)]) Hext; exists p, d;
    (split; [done|]); (split; [done|]); [by left|right].
  destruct (Hext p i Hi) as (i' & Hi' & He). exists i'. split; [done|].
  by eapply merge_settled_extends.
Qed.

Lemma file_settled_extends rows w w' :
  file_settled catalog rows w → tree_extends w w' → file_settled catalog rows w'.
Proof.
  intros H Hext raw Hin. destruct (H raw Hin) as (row & Hraw & Hs).
  exists row. split; [done|]. by eapply settled_extends.
Qed.

(** A row that was merged is settled. *)
Lemma process_row_settles row w r w' :
  process_row catalog template row w = (inr r, w') → settled catalog row w'.
Proof.
  intros H.
  apply process_row_inr in H
    as (p & d & Hp & Hd & [(Hno & -> & ->)|(Happ & i & i' & c & Hl & Hm & -> & ->)]);
    exists p, d; (split; [done|]); (split; [done|]); [by left|right].
  exists i'. split; [by eapply finish_lookup|by eapply merge_idem].
Qed.

(** A settled row is counted as ignored or not at all, and only looks at
    the tree. *)
Lemma process_row_settled row w :
  settled catalog row w →
  ∃ w', process_row catalog template row w
        = (inr (mkUpdateRecord 0 0
                  (if match row !! "integration" with
                      | Some x => negb (in_set x (APPROVED_INTEGRATIONS catalog))
                      | None => false
                      end then 1 else 0)), w')
    ∧ fs w' = fs w
    ∧ calls w' = calls w ++ new_calls w w'
    ∧ existsb is_write (new_calls w w') = false
    ∧ existsb is_copytree (new_calls w w') = false.
Proof.
  intros (p & d & Hp & Hd & Hcase). rewrite process_row_eq, Hp, Hd.
  cbn [default from_option id in_set].
  destruct Hcase as [Hno|(i & Hi & Hm)].
  - rewrite bool_decide_false by done. exists w.
    rewrite new_calls_refl, app_nil_r. by split_and!.
  - destruct (decide (d ∈ APPROVED_INTEGRATIONS catalog)) as [Happ|Hno].
    + rewrite bool_decide_true by done. cbv zeta.
      rewrite after_load_lookup, Hi, Hm, bool_decide_true by eauto.
      eexists. split; [reflexivity|]. cbn [finish negb outcome].
      rewrite new_calls_after_load, Hi, bool_decide_true by eauto.
      unfold after_load. rewrite Hi. cbn [fs calls]. by split_and!.
    + rewrite bool_decide_false by done. exists w.
      rewrite new_calls_refl, app_nil_r. by split_and!.
Qed.

Lemma existsb_new_calls_trans kind w w1 w2 :
  calls w1 = calls w ++ new_calls w w1 → calls w2 = calls w1 ++ new_calls w1 w2 →
  existsb kind (new_calls w w1) = false → existsb kind (new_calls w1 w2) = false →
  existsb kind (new_calls w w2) = false.
Proof.
  intros H1 H2 Hk1 Hk2. destruct (new_calls_trans _ _ _ H1 H2) as [_ ->].
  by rewrite existsb_app, Hk1, Hk2.
Qed.

(** A file whose rows are all settled is read without a change. *)
Lemma process_file_settled rows w :
  file_settled catalog rows w →
  ∃ w', process_file catalog template rows w
        = (inr (mkUpdateRecord 0 0
                  (Z.of_nat (length (List.filter (is_ignored catalog) rows)))), w')
    ∧ fs w' = fs w
    ∧ calls w' = calls w ++ new_calls w w'
    ∧ existsb is_write (new_calls w w') = false
    ∧ existsb is_copytree (new_calls w w') = false.
Proof.
  revert w. induction rows as [|raw rows IH]; intros w H.
  - exists w. rewrite new_calls_refl, app_nil_r. by split_and!.
  - destruct (H raw) as (row & Hraw & Hs); [left|].
    destruct (process_row_settled row w Hs) as (w1 & Hrow & Hfs1 & Hc1 & Hw1 & Hk1).
    destruct (IH w1) as (w2 & Hrows & Hfs2 & Hc2 & Hw2 & Hk2).
    { apply (file_settled_extends rows w); [|by apply tree_extends_fs].
      intros raw' Hin. apply H. by right. }
    exists w2. rewrite process_file_cons, Hraw, Hrow, Hrows.
    cbn [List.filter]. rewrite (is_ignored_inr _ _ Hraw).
    split_and!.
    + f_equal. unfold UpdateRecord_add. cbn [created updated ignored].
      destruct (match row !! "integration" with
                | Some x => negb (in_set x (APPROVED_INTEGRATIONS catalog))
                | None => false
                end); cbn [length]; do 2 f_equal; lia.
    + congruence.
    + by destruct (new_calls_trans _ _ _ Hc1 Hc2).
    + by eapply existsb_new_calls_trans.
    + by eapply existsb_new_calls_trans.
Qed.

(** The rows of a file that was processed are settled, and the ignored
    rows are those of an integration that is not approved. *)
Lemma process_file_settles rows w t w' :
  process_file catalog template rows w = (inr t, w') →
  file_settled catalog rows w'
  ∧ ignored t = Z.of_nat (length (List.filter (is_ignored catalog) rows)).
Proof.
  revert w t. induction rows as [|raw rows IH]; intros w t H.
  - cbv [process_file for_each_M ret] in H. simplify_eq. split; [|done].
    intros raw Hin. by apply elem_of_nil in Hin.
  - rewrite process_file_cons in H.
    destruct (DEVICE_SCHEMA raw) as [e|row] eqn:Hraw; [done|].
    destruct (process_row catalog template row w) as [[e|r] w1] eqn:Hrow; [done|].
    destruct (process_file catalog template rows w1) as [[e|t'] w2] eqn:Hrows; [done|].
    simplify_eq. pose proof (process_file_extends rows w1) as Hext.
    rewrite Hrows in Hext. cbn [snd] in Hext.
    destruct (IH _ _ Hrows) as [Hs Hi]. split.
    + intros raw' [->|Hin]%elem_of_cons; [|by apply Hs].
      exists row. split; [done|]. eapply settled_extends; [|done].
      by eapply process_row_settles.
    + apply process_row_counts in Hrow as (_ & _ & Hir & _).
      cbn [List.filter]. rewrite (is_ignored_inr _ _ Hraw).
      unfold UpdateRecord_add. cbn [ignored]. rewrite Hir, Hi.
      destruct (match row !! "integration" with
                | Some x => negb (in_set x (APPROVED_INTEGRATIONS catalog))
                | None => false
                end); cbn [length]; lia.
Qed.

(** X12. Processing a file again changes nothing. Once [process_file]
    has returned for a file, processing the same file again, at once or
    after any further batch has been processed, returns a total with no
    directory created, no document updated and the same number of ignored
    rows; the tree is left as it was found, and neither [copytree] nor
    [write_text] is called. *)
Theorem process_file_again rows w t w1 files :
  process_file catalog template rows w = (inr t, w1) →
  ∃ w3,
    process_file catalog template rows (process catalog template files w1).2
    = (inr (mkUpdateRecord 0 0 (ignored t)), w3)
    ∧ fs w3 = fs (process catalog template files w1).2
    ∧ existsb is_write (new_calls (process catalog template files w1).2 w3) = false
    ∧ existsb is_copytree (new_calls (process catalog template files w1).2 w3) = false.
Proof.
  intros H. apply process_file_settles in H as [Hs ->].
  destruct (process_file_settled rows (process catalog template files w1).2)
    as (w3 & Hrun & Hfs & _ & Hw & Hk).
  { eapply file_settled_extends; [done|]. apply process_extends. }
  by exists w3.
Qed.

Lemma process_cons name rows files w :
  process catalog template ((name, rows) :: files) w =
  match process_file catalog template rows w with
  | (r, w1) =>
      match process catalog template files w1 with
      | (inr (out, total), w2) =>
          (inr ((name, status_of r) :: out,
                match r with inr t => UpdateRecord_add t total | inl _ => total end), w2)
      | (inl e, w2) => (inl e, w2)
      end
  end.
Proof.
  rewrite (process_eq catalog template (_ :: _)). cbn [files_results].
  destruct (process_file catalog template rows w) as [r w1].
  rewrite (process_eq catalog template files w1).
  destruct (files_results catalog template files w1) as [rs w2]. cbn [fst snd].
  by destruct r.
Qed.

Lemma ignored_rows_cons rows (files : list (string * list raw_row)) name :
  Z.of_nat (length (List.filter (is_ignored catalog) (concat ((name, rows) :: files).*2)))
  = Z.of_nat (length (List.filter (is_ignored catalog) rows))
    + Z.of_nat (length (List.filter (is_ignored catalog) (concat files.*2))).
Proof. rewrite fmap_cons. cbn [concat snd]. rewrite List.filter_app, length_app. lia. Qed.

(** A batch whose files are all settled is read without a change. *)
Lemma process_settled files w :
  (∀ name rows, (name, rows) ∈ files → file_settled catalog rows w) →
  ∃ w', process catalog template files w
        = (inr ((λ f, (f.1, Done)) <$> files,
                mkUpdateRecord 0 0
                  (Z.of_nat (length (List.filter (is_ignored catalog) (concat files.*2))))),
           w')
    ∧ fs w' = fs w
    ∧ calls w' = calls w ++ new_calls w w'
    ∧ existsb is_write (new_calls w w') = false
    ∧ existsb is_copytree (new_calls w w') = false.
Proof.
  revert w. induction files as [|[name rows] files IH]; intros w H.
  - exists w. rewrite new_calls_refl, app_nil_r. by split_and!.
  - destruct (process_file_settled rows w) as (w1 & Hfile & Hfs1 & Hc1 & Hw1 & Hk1).
    { apply (H name). left. }
    destruct (IH w1) as (w2 & Hrest & Hfs2 & Hc2 & Hw2 & Hk2).
    { intros name' rows' Hin. apply (file_settled_extends rows' w).
      - apply (H name'). by right.
      - by apply tree_extends_fs. }
    exists w2. rewrite process_cons, Hfile, Hrest, ignored_rows_cons. split_and!.
    + by rewrite fmap_cons.
    + congruence.
    + by destruct (new_calls_trans _ _ _ Hc1 Hc2).
    + by eapply existsb_new_calls_trans.
    + by eapply existsb_new_calls_trans.
Qed.

(** The files of a batch that went through without an error are
    settled. *)
Lemma process_settles files w out total w' :
  process catalog template files w = (inr (out, total), w') →
  (∀ line, line ∈ out → line.2 = Done) →
  (∀ name rows, (name, rows) ∈ files → file_settled catalog rows w')
  ∧ out = (λ f, (f.1, Done)) <$> files
  ∧ ignored total
    = Z.of_nat (length (List.filter (is_ignored catalog) (concat files.*2))).
Proof.
  revert w out total. induction files as [|[name rows] files IH]; intros w out total H Hdone.
  - cbv [process for_each_M ret] in H. simplify_eq. split_and!; [|done..].
    intros name rows Hin. by apply elem_of_nil in Hin.
  - rewrite process_cons in H.
    destruct (process_file catalog template rows w) as [r w1] eqn:Hfile.
    destruct (process catalog template files w1) as [[e|[out' total']] w2] eqn:Hrest;
      [done|].
    simplify_eq. destruct r as [e|t].
    { specialize (Hdone (name, Error e)). cbn in Hdone. discriminate Hdone. left. }
    destruct (IH _ _ _ Hrest) as (Hs & -> & Hi).
    { intros line Hin. apply Hdone. by right. }
    pose proof (process_extends files w1) as Hext. rewrite Hrest in Hext.
    cbn [snd] in Hext. apply process_file_settles in Hfile as [Hs1 Hi1].
    rewrite ignored_rows_cons. split_and!.
    + intros name' rows' [[= -> ->]|Hin]%elem_of_cons; [|by eapply Hs].
      by eapply file_settled_extends.
    + done.
    + unfold UpdateRecord_add. cbn [ignored]. lia.
Qed.

(** X13. A batch that went through without an error changes nothing
    when it is run again. When [process] has printed [Done] for every
    file, a second run on the tree it left prints the same lines and a
    total with no directory created, no document updated and the same
    number of ignored rows; the tree is left as it was, and neither
    [copytree] nor [write_text] is called. *)
Theorem process_again files w out total w1 :
  process catalog template files w = (inr (out, total), w1) →
  (∀ line, line ∈ out → line.2 = Done) →
  ∃ w2,
    process catalog template files w1
    = (inr (out, mkUpdateRecord 0 0 (ignored total)), w2)
    ∧ fs w2 = fs w1
    ∧ existsb is_write (new_calls w1 w2) = false
    ∧ existsb is_copytree (new_calls w1 w2) = false.
Proof.
  intros H Hdone. apply process_settles in H as (Hs & -> & ->); [|done].
  destruct (process_settled files w1 Hs) as (w2 & Hrun & Hfs & _ & Hw & Hk).
  by exists w2.
Qed.

End File.

(** ** The directory of a device *)






(** ** The further properties on the sample inputs *)

(** The sample line and the row it validates to. *)
Lemma DEVICE_SCHEMA_row_witness :
  dom Sample.row = dom (cells Sample.raw)
  ∧ (∀ k, k ∈ ["integration"; "manufacturer"; "model"] →
       ∀ v, Sample.row !! k = Some v →
         cells Sample.raw !! k = Some (Some match v with SStr s => s | _ => "" end)
         ∧ is_str v = true)
  ∧ (∀ k, k ∈ ["sw_version"; "hw_version"; "entry_type"] →
       ∀ v, Sample.row !! k = Some v →
         v ≠ SStr "None"
         ∧ (v = SNone ↔ cells Sample.raw !! k = Some None
                        ∨ cells Sample.raw !! k = Some (Some "None"))
         ∧ (∀ s, v = SStr s ↔ cells Sample.raw !! k = Some (Some s) ∧ s ≠ "None"))
  ∧ (∀ k, k ∈ ["has_via_device"; "has_suggested_area"; "has_configuration_url"] →
       ∀ v, Sample.row !! k = Some v →
         ∃ b, v = SBool b ∧ (b = true ↔ cells Sample.raw !! k = Some (Some "True")))
  ∧ ((∀ k, k ∈ SCHEMA_KEYS → is_Some (cells Sample.raw !! k)) →
     DeviceRow Sample.row = true).
Proof.
  refine (DEVICE_SCHEMA_row Sample.raw Sample.row _). decide_by_computation.
Defined.


Example process_row_without_entry_type :
  process_row Sample.catalog Sample.template Edge.row_without_entry_type
    Sample.empty_world
  = (inl (KeyError "entry_type"),
     World {[ Sample.dir_of_row := Sample.template ]}
           [ Exists Sample.dir_of_row; Copytree Sample.dir_of_row;
             ReadText Sample.dir_of_row ]).
Proof. decide_by_computation. Qed.

(** A line of an integration that is not approved, under a header
    without [manufacturer], is not ignored: it raises. *)
Example process_row_wled_without_manufacturer :
  process_row Sample.catalog Sample.template Edge.wled_row_without_manufacturer
    Sample.empty_world
  = (inl (KeyError "manufacturer"), Sample.empty_world).
Proof. decide_by_computation. Qed.

(** The sample row, whose entry type is [None], is processed as a
    device. *)
Lemma entry_type_default_witness :
  process_row Sample.catalog Sample.template Sample.row Sample.empty_world
  = process_row Sample.catalog Sample.template
      (<["entry_type" := SStr "device"]> Sample.row) Sample.empty_world.
Proof.
  refine (entry_type_default Sample.catalog Sample.template Sample.row
            Sample.empty_world SNone _ _); decide_by_computation.
Defined.

(** The sample row in the empty tree: created, and written as well. *)
Lemma outcome_effects_witness :
  let r := mkUpdateRecord 1 0 0 in
  let w := Sample.empty_world in
  let w' := Sample.world_after_row in
  (ignored r = 1 ↔ new_calls w w' = [])
  ∧ (ignored r = 1 → w' = w)
  ∧ (created r = 1 ↔ existsb is_copytree (new_calls w w') = true)
  ∧ (created r = 1 ↔
     ∃ p d, model_dir Sample.row = inr p ∧ Sample.row !! "integration" = Some (SStr d)
            ∧ d ∈ APPROVED_INTEGRATIONS Sample.catalog ∧ fs w !! p = None)
  ∧ (updated r = 1 ↔
     existsb is_copytree (new_calls w w') = false
     ∧ existsb is_write (new_calls w w') = true).
Proof.
  refine (outcome_effects Sample.catalog Sample.template Sample.row Sample.empty_world
            (mkUpdateRecord 1 0 0) Sample.world_after_row _).
  decide_by_computation.
Defined.


Example process_row_template_no_mapping :
  (process_row Sample.catalog (Some YOther) Sample.row Sample.empty_world).1
  = inl TypeError.
Proof. decide_by_computation. Qed.

(** A file with the sample line twice and a line of [wled]. *)
Lemma process_file_counts_witness :
  let rows := [Sample.raw; Sample.raw;
               RawRow (<["integration" := Some "wled"]> (cells Sample.raw)) None] in
  let w := Sample.empty_world in
  let t := mkUpdateRecord 1 0 1 in
  let w' := (process_file Sample.catalog Sample.template rows w).2 in
  calls w' = calls w ++ new_calls w w'
  ∧ (0 ≤ created t ∧ 0 ≤ updated t ∧ 0 ≤ ignored t
     ∧ created t + updated t + ignored t ≤ Z.of_nat (length rows))%Z
  ∧ ignored t = Z.of_nat (length (List.filter (is_ignored Sample.catalog) rows))
  ∧ created t = count_calls is_copytree (new_calls w w')
  ∧ (updated t ≤ count_calls is_write (new_calls w w') ≤ created t + updated t)%Z
  ∧ Z.of_nat (size (dom (fs w'))) = Z.of_nat (size (dom (fs w))) + created t.
Proof.
  refine (process_file_counts Sample.catalog Sample.template
            [Sample.raw; Sample.raw;
             RawRow (<["integration" := Some "wled"]> (cells Sample.raw)) None]
            Sample.empty_world (mkUpdateRecord 1 0 1) _ _).
  decide_by_computation.
Defined.

(** The sample file again, after a batch with another device. *)
Lemma process_file_again_witness :
  let w2 := (process Sample.catalog Sample.template
               [("b.csv", [RawRow (<["model" := Some "LCT002"]> (cells Sample.raw)) None])]
               Sample.world_after_row).2 in
  ∃ w3,
    process_file Sample.catalog Sample.template [Sample.raw] w2
    = (inr (mkUpdateRecord 0 0 (ignored (mkUpdateRecord 1 0 0))), w3)
    ∧ fs w3 = fs w2
    ∧ existsb is_write (new_calls w2 w3) = false
    ∧ existsb is_copytree (new_calls w2 w3) = false.
Proof.
  refine (process_file_again Sample.catalog Sample.template [Sample.raw]
            Sample.empty_world (mkUpdateRecord 1 0 0) Sample.world_after_row
            [("b.csv", [RawRow (<["model" := Some "LCT002"]> (cells Sample.raw)) None])]
            _).
  decide_by_computation.
Defined.

(** A batch of two files without an error, run twice. *)
Lemma process_again_witness :
  let files := [ ("a.csv", [Sample.raw]); ("b.csv", [Sample.raw; Sample.raw]) ] in
  let out := [ ("a.csv", Done); ("b.csv", Done) ] in
  let w1 := (process Sample.catalog Sample.template files Sample.empty_world).2 in
  ∃ w2,
    process Sample.catalog Sample.template files w1
    = (inr (out, mkUpdateRecord 0 0 (ignored (mkUpdateRecord 1 0 0))), w2)
    ∧ fs w2 = fs w1
    ∧ existsb is_write (new_calls w1 w2) = false
    ∧ existsb is_copytree (new_calls w1 w2) = false.
Proof.
  refine (process_again Sample.catalog Sample.template
            [ ("a.csv", [Sample.raw]); ("b.csv", [Sample.raw; Sample.raw]) ]
            Sample.empty_world [ ("a.csv", Done); ("b.csv", Done) ]
            (mkUpdateRecord 1 0 0) _ _ _).
  - decide_by_computation.
  - intros line Hin. apply list_elem_of_In in Hin.
    destruct Hin as [<-|[<-|[]]]; reflexivity.
Defined.

(** Two devices whose names differ in a slash share a directory. *)
Example model_dir_slash :
  model_dir Edge.slash_row = inr ["hue"; "A_B"; "X_1_2"]
  ∧ model_dir (<["manufacturer" := SStr "A_B"]> Edge.slash_row)
    = model_dir Edge.slash_row.
Proof. split; decide_by_computation. Qed.

(** ** Rows of different devices *)

Section Order.

Context (catalog : gset string) (template : dir).




End Order.

